(** * monkey-business: checked access, ordered insertion and iterator adapters

    A shallow embedding of [src/index.ts] together with the properties its
    specification states about it.

    Conventions of the embedding:
    - a JavaScript [number] is a dyadic rational, [NaN] or an infinity; the
      functions modelled here never do arithmetic on an index, they only test
      it with [Number.isInteger], compare it and use it as a property key;
    - a JavaScript array is a list of slots, a slot being a hole (a position
      of a sparse array that was never assigned) or an assigned element;
    - a method that mutates [this] returns the new contents of [this] next to
      its result; a method that can throw returns a [completion];
    - an iterator over an array is the list of the items it has not produced
      yet. *)

From Stdlib Require Import ZArith List Lia Bool Sorted Permutation.
From stdpp Require Import base option list sorting strings gmap.
Import ListNotations.

Local Open Scope Z_scope.

(** ** Numbers *)

(** [Fin m e] is the finite number [m / 2^e]. *)
Inductive number : Type :=
| Fin (m : Z) (e : N)
| NaN
| Infinity (negative : bool).

Definition number_of_Z (z : Z) : number := Fin z 0.
Definition number_of_nat (n : nat) : number := Fin (Z.of_nat n) 0.

(** [Number.isInteger(n)] *)
Definition isInteger (n : number) : bool :=
  match n with
  | Fin m e => m mod 2 ^ Z.of_N e =? 0
  | NaN | Infinity _ => false
  end.

(** The integer an integral number stands for (its floor otherwise). *)
Definition toZ (n : number) : Z :=
  match n with
  | Fin m e => m / 2 ^ Z.of_N e
  | NaN | Infinity _ => 0
  end.

(** [n < 0] *)
Definition lt_zero (n : number) : bool :=
  match n with
  | Fin m _ => m <? 0
  | NaN => false
  | Infinity negative => negative
  end.

(** [n >= len], for an array length [len] *)
Definition ge_length (n : number) (len : nat) : bool :=
  match n with
  | Fin m e => Z.of_nat len * 2 ^ Z.of_N e <=? m
  | NaN => false
  | Infinity negative => negb negative
  end.

(** [n > len], for an array length [len] *)
Definition gt_length (n : number) (len : nat) : bool :=
  match n with
  | Fin m e => Z.of_nat len * 2 ^ Z.of_N e <? m
  | NaN => false
  | Infinity negative => negb negative
  end.

(** [a === b] on numbers *)
Definition number_eqb (a b : number) : bool :=
  match a, b with
  | Fin m1 e1, Fin m2 e2 => m1 * 2 ^ Z.of_N e2 =? m2 * 2 ^ Z.of_N e1
  | Infinity s1, Infinity s2 => Bool.eqb s1 s2
  | _, _ => false
  end.

(** ** Values, errors, completions *)

Inductive value : Type :=
| VUndefined
| VNull
| VBool (b : bool)
| VNumber (n : number)
| VString (s : string).

(** [a === b] *)
Definition strict_eq (a b : value) : bool :=
  match a, b with
  | VUndefined, VUndefined => true
  | VNull, VNull => true
  | VBool x, VBool y => Bool.eqb x y
  | VNumber x, VNumber y => number_eqb x y
  | VString x, VString y => bool_decide (x = y)
  | _, _ => false
  end.

Definition strict_neq (a b : value) : bool := negb (strict_eq a b).

Inductive error : Type :=
| TypeError
| RangeError
| AssertionError.

Inductive completion (A : Type) : Type :=
| Return (a : A)
| Throw (e : error).
Arguments Return {A} a.
Arguments Throw {A} e.

(** ** Arrays *)

Inductive slot (A : Type) : Type :=
| Hole
| Elem (a : A).
Arguments Hole {A}.
Arguments Elem {A} a.

Abbreviation array := (list (slot value)).

(** The array index a number denotes when it is used as a property key:
    [ToPropertyKey] turns the number into a string, and that string is an
    index key exactly for the non-negative integers. *)
Definition toIndex (key : number) : option nat :=
  if isInteger key && negb (lt_zero key) then Some (Z.to_nat (toZ key)) else None.

(** [Object.hasOwn(arr, key)] for a numeric key *)
Definition hasOwn (arr : array) (key : number) : bool :=
  match toIndex key with
  | Some i => match arr !! i with
              | Some (Elem _) => true
              | _ => false
              end
  | None => false
  end.

(** [arr[key]] for a numeric key *)
Definition read (arr : array) (key : number) : value :=
  match toIndex key with
  | Some i => match arr !! i with
              | Some (Elem v) => v
              | _ => VUndefined
              end
  | None => VUndefined
  end.

(** [Object.get] *)
Definition Object_get (obj : array) (key : number) : option value :=
  if hasOwn obj key then Some (read obj key) else None.

Module Array.

(** [Array.prototype.splice(start, deleteCount, ...items)]: the removed
    elements and the new contents of the array. *)
Definition splice {A : Type} (this : list A) (start deleteCount : Z) (items : list A)
  : list A * list A :=
  let len := Z.of_nat (length this) in
  let actualStart := if start <? 0 then Z.max (len + start) 0 else Z.min start len in
  let actualDeleteCount := Z.min (Z.max deleteCount 0) (len - actualStart) in
  let k := Z.to_nat actualStart in
  let d := Z.to_nat actualDeleteCount in
  (firstn d (skipn k this), firstn k this ++ items ++ skipn (k + d) this).

(** [Array.prototype.pop()] on an array of slots: the value popped. *)
Definition pop (this : array) : value :=
  match last this with
  | Some (Elem v) => v
  | _ => VUndefined
  end.

(** [Array.prototype.filter(fn)]: holes are skipped. *)
Fixpoint filter (fn : value -> bool) (this : array) : array :=
  match this with
  | [] => []
  | Hole :: rest => filter fn rest
  | Elem v :: rest => if fn v then Elem v :: filter fn rest else filter fn rest
  end.

(** [Array.prototype.get] *)
Definition get (this : array) (index : number) : completion (option value) :=
  Return (Object_get this index).

(** [Array.prototype.present]: the copy returned, and [this] afterwards. *)
Definition present (this : array) : array * array :=
  (filter (fun value => strict_neq value VUndefined) this, this).

(** [Array.prototype.nonNullable]: the copy returned, and [this] afterwards. *)
Definition nonNullable (this : array) : array * array :=
  (filter (fun value => strict_neq value VUndefined) this, this).

(** [Array.prototype.insert]: [this] afterwards, which is also what the
    method returns. *)
Definition insert {A : Type} (this : list A) (value : A) (index : number)
  : completion (list A) :=
  if negb (isInteger index) then Throw TypeError
  else if gt_length index (length this) || lt_zero index then Throw RangeError
  else Return (snd (splice this (toZ index) 0 [value])).

(** [Array.prototype.indexOf(searchElement)], searching from position [k]:
    holes are skipped, elements are compared with [===], and the result is
    [-1] when nothing matches. *)
Fixpoint indexOf_from (this : array) (searchElement : value) (k : nat) : Z :=
  match this with
  | [] => -1
  | Hole :: rest => indexOf_from rest searchElement (S k)
  | Elem x :: rest =>
      if strict_eq x searchElement then Z.of_nat k
      else indexOf_from rest searchElement (S k)
  end.

Definition indexOf (this : array) (searchElement : value) : number :=
  number_of_Z (indexOf_from this searchElement 0).

(** [Array.prototype.findIndex(predicate)], searching [rest] from position
    [k] of the array [obj]: a hole is read as [undefined], and the result is
    [-1] when the predicate accepts nothing. *)
Fixpoint findIndex_from (predicate : value -> nat -> array -> bool) (obj rest : array)
    (k : nat) : Z :=
  match rest with
  | [] => -1
  | s :: rest' =>
      if predicate (match s with Hole => VUndefined | Elem v => v end) k obj
      then Z.of_nat k
      else findIndex_from predicate obj rest' (S k)
  end.

Definition findIndex (this : array) (predicate : value -> nat -> array -> bool)
  : number :=
  number_of_Z (findIndex_from predicate this this 0).

Section RemoveIndex.

(** [Option.from] of the option library, which [src/] does not contain. *)
Variable Option_from : value -> option value.

(** [Array.prototype.removeIndex]: the result and [this] afterwards. *)
Definition removeIndex (this : array) (index : number)
  : completion (option value * array) :=
  if negb (isInteger index) then Throw TypeError
  else if lt_zero index || ge_length index (length this) then Return (None, this)
  else
    let '(removed, this') := splice this (toZ index) 1 [] in
    Return (Option_from (pop removed), this').

(** [Array.prototype.remove] *)
Definition remove (this : array) (v : value)
  : completion (option value * array) :=
  removeIndex this (indexOf this v).

(** [Array.prototype.removeFn] *)
Definition removeFn (this : array) (predicate : value -> nat -> array -> bool)
  : completion (option value * array) :=
  removeIndex this (findIndex this predicate).

End RemoveIndex.

End Array.

(** ** Ordered insertion *)

(** Modelled from the spec: the three-way result of a comparator, which
    [src/] only imports as the result type of [OrderFn]. *)
Inductive Ordering : Type :=
| Less
| Equal
| Greater.

Definition OrderFn (T : Type) : Type := T -> T -> Ordering.

(** The ["low" | "high"] argument of [insertOrdered]. *)
Inductive duplicates : Type :=
| low
| high.

Section InsertOrdered.

Context {T : Type}.

(** The two bisection functions [src/] imports; they are parameters here. *)
Variables bisectLow bisectHigh : OrderFn T -> list T -> T -> number.

(** [Array.prototype.insertOrdered]; [None] is an omitted third argument. *)
Definition insertOrdered (this : list T) (value : T) (cmp : OrderFn T)
    (dup : option duplicates) : completion (list T) :=
  let duplicates := default high dup in
  Array.insert this value
    ((match duplicates with low => bisectLow | high => bisectHigh end) cmp this value).

End InsertOrdered.

(** Modelled from the spec: a binary search for the leftmost / rightmost
    insertion index, as section 6 describes [bisectLow] and [bisectHigh];
    the functions themselves are not part of [src/]. [goRight x] tells
    whether the index searched for lies to the right of an element [x]. *)
Fixpoint bisect {T : Type} (fuel : nat) (goRight : T -> bool) (seq : list T)
    (lo hi : nat) : nat :=
  match fuel with
  | O => lo
  | S fuel' =>
      if (lo <? hi)%nat then
        let mid := ((lo + hi) / 2)%nat in
        match seq !! mid with
        | Some x => if goRight x then bisect fuel' goRight seq (S mid) hi
                    else bisect fuel' goRight seq lo mid
        | None => lo
        end
      else lo
  end.

Definition is_Less (o : Ordering) : bool :=
  match o with Less => true | _ => false end.

(** Modelled from the spec: [bisectLow], the leftmost insertion index; it
    moves right past the elements that are before [value]. *)
Definition bisectLow_model {T : Type} (cmp : OrderFn T) (seq : list T) (value : T)
  : number :=
  number_of_nat
    (bisect (S (length seq)) (fun x => is_Less (cmp x value)) seq 0 (length seq)).

(** Modelled from the spec: [bisectHigh], the rightmost insertion index; it
    moves right past the elements that [value] is not before. *)
Definition bisectHigh_model {T : Type} (cmp : OrderFn T) (seq : list T) (value : T)
  : number :=
  number_of_nat
    (bisect (S (length seq)) (fun x => negb (is_Less (cmp value x))) seq 0 (length seq)).

(** Modelled from the spec: the ascending comparator of the scenarios
    ([Order.ascending] in the test suite), on integers. *)
Definition ascending : OrderFn Z :=
  fun a b => match a ?= b with Lt => Less | Eq => Equal | Gt => Greater end.

(** ** Maps *)

Module Map.

Section GetOrSet.

Context `{Countable K}.

(** What a call of the producer can see and change: the map itself (the
    producer may be a closure over it) and the rest of the program state. *)
Context {W : Type}.

Record heap : Type := Heap {
  map : gmap K value;
  world : W;
  calls : nat   (* how many times the producer has been called *)
}.

(** A call [f()] of a function that may read and write the heap. *)
Definition invoke (f : gmap K value * W -> value * (gmap K value * W)) (h : heap)
  : value * heap :=
  let '(v, (m, w)) := f (map h, world h) in
  (v, Heap m w (S (calls h))).

(** [Map.prototype.get] *)
Definition get (this : gmap K value) (key : K) : value :=
  match this !! key with
  | Some v => v
  | None => VUndefined
  end.

(** [Map.prototype.set] *)
Definition set (key : K) (v : value) (h : heap) : heap :=
  Heap (<[key := v]> (map h)) (world h) (calls h).

(** [Map.prototype.getOrSet], [this] being the map of the heap. *)
Definition getOrSet (key : K)
    (defaultValue : gmap K value * W -> value * (gmap K value * W)) (h : heap)
  : value * heap :=
  let result := get (map h) key in
  if strict_neq result VUndefined then (result, h)
  else
    let '(newValue, h1) := invoke defaultValue h in
    (newValue, set key newValue h1).

End GetOrSet.

End Map.

(** ** Records *)

(** An object used as a record is given by its own entries, in the order
    [Object.entries] lists them; the object [Object.fromEntries] builds is
    given by the value each key ends up with. *)
Definition Object_entries {A : Type} (obj : list (string * A)) : list (string * A) :=
  obj.

(** [Object.fromEntries]: the entries are stored one after the other, so a
    later entry replaces an earlier one with the same key. *)
Definition Object_fromEntries {B : Type} (entries : list (string * B))
  : gmap string B :=
  foldl (fun o e => <[fst e := snd e]> o) ∅ entries.

(** [Object.mapEntries] *)
Definition Object_mapEntries {A B : Type} (obj : list (string * A))
    (fn : string * A -> string * B) : gmap string B :=
  Object_fromEntries (fn <$> Object_entries obj).

(** ** Iterators *)

Inductive IteratorResult (A : Type) : Type :=
| Yield (value : A)
| Done.
Arguments Yield {A} value.
Arguments Done {A}.

(** Calling [next] until it reports [done], as [toArray] and [Array.from]
    do: the items produced and the final state, or [None] when [fuel] calls
    were not enough. *)
Fixpoint drain {S A : Type} (next : S -> IteratorResult A * S) (fuel : nat) (st : S)
  : option (list A * S) :=
  match fuel with
  | O => None
  | Datatypes.S fuel' =>
      match next st with
      | (Done, st') => Some ([], st')
      | (Yield v, st') =>
          match drain next fuel' st' with
          | Some (vs, st'') => Some (v :: vs, st'')
          | None => None
          end
      end
  end.

Module Iterator.

Section Adapters.

Context {T : Type}.

(** [next()] of the iterator of an array: the upstream of the adapters. *)
Definition next (iter : list T) : IteratorResult T * list T :=
  match iter with
  | [] => (Done, [])
  | x :: rest => (Yield x, rest)
  end.

(** *** takeWhile *)

Record takeWhile_state : Type := TakeWhile {
  tw_iter : list T;
  tw_index : nat;
  tw_done : bool
}.

Definition takeWhile (this : list T) : takeWhile_state := TakeWhile this 0 false.

Definition takeWhile_next (predicate : T -> nat -> bool) (st : takeWhile_state)
  : IteratorResult T * takeWhile_state :=
  if negb (tw_done st) then
    match next (tw_iter st) with
    | (Done, iter) => (Done, TakeWhile iter (tw_index st) (tw_done st))
    | (Yield v, iter) =>
        if predicate v (tw_index st)
        then (Yield v, TakeWhile iter (S (tw_index st)) (tw_done st))
        else (Done, TakeWhile iter (S (tw_index st)) true)
    end
  else (Done, TakeWhile (tw_iter st) (tw_index st) true).

(** *** skipWhile *)

Record skipWhile_state : Type := SkipWhile {
  sw_iter : list T;
  sw_index : nat;
  sw_skipped : bool
}.

Definition skipWhile (this : list T) : skipWhile_state := SkipWhile this 0 false.

(** The [while (true)] loop of [skipWhile]; each round starts with
    [iter.next()], which is the match on the remaining items. *)
Fixpoint skipWhile_loop (predicate : T -> nat -> bool) (iter : list T) (index : nat)
  : IteratorResult T * skipWhile_state :=
  match iter with
  | [] => (Done, SkipWhile [] index false)
  | v :: rest =>
      if negb (predicate v index) then (Yield v, SkipWhile rest (S index) true)
      else skipWhile_loop predicate rest (S index)
  end.

Definition skipWhile_next (predicate : T -> nat -> bool) (st : skipWhile_state)
  : IteratorResult T * skipWhile_state :=
  if sw_skipped st then
    let '(result, iter) := next (sw_iter st) in
    (result, SkipWhile iter (sw_index st) (sw_skipped st))
  else skipWhile_loop predicate (sw_iter st) (sw_index st).

(** *** partition *)

Record partition_state : Type := Partition {
  p_iter : list T;
  p_done : bool
}.

Definition partition (this : list T) : partition_state := Partition this false.

(** The [while (true)] loop of [partition], [part] being the group built so
    far. [size] is the integer the caller passed. *)
Fixpoint partition_loop (size : Z) (part : list T) (iter : list T)
  : IteratorResult (list T) * partition_state :=
  match iter with
  | [] =>
      ((if (0 <? length part)%nat then Yield part else Done), Partition [] true)
  | v :: rest =>
      let part := part ++ [v] in
      if Z.of_nat (length part) =? size then (Yield part, Partition rest false)
      else partition_loop size part rest
  end.

Definition partition_next (size : Z) (st : partition_state)
  : IteratorResult (list T) * partition_state :=
  if p_done st then (Done, st)
  else partition_loop size [] (p_iter st).

(** *** frontBiasedPartition *)

(** [Array.prototype.slice(start, end)] *)
Definition slice (this : list T) (start end_ : Z) : list T :=
  let len := Z.of_nat (length this) in
  let k := if start <? 0 then Z.max (len + start) 0 else Z.min start len in
  let final := if end_ <? 0 then Z.max (len + end_) 0 else Z.min end_ len in
  firstn (Z.to_nat (final - k)) (skipn (Z.to_nat k) this).

(** [a % b] for integers; [None] is [NaN]. *)
Definition remainder (a b : Z) : option Z :=
  if b =? 0 then None else Some (Z.rem a b).

(** The [while (inputPos < input.length)] loop: the output and the final
    [inputPos], or [None] when [fuel] rounds were not enough. *)
Fixpoint frontBiased_loop (fuel : nat) (input : list T) (size : Z) (inputPos : Z)
    (output : list (list T)) : option (list (list T) * Z) :=
  if inputPos <? Z.of_nat (length input) then
    match fuel with
    | O => None
    | S fuel' =>
        frontBiased_loop fuel' input size (inputPos + size)
          (output ++ [slice input inputPos (inputPos + size)])
    end
  else Some (output, inputPos).

(** Modelled from the spec: [assert(cond)] of the imported assertion
    utility, which [src/] does not contain; it throws when [cond] is false. *)
Definition assert (cond : bool) : completion unit :=
  if cond then Return tt else Throw AssertionError.

(** [Iterator.prototype.frontBiasedPartition]; [this.toArray()] is the list
    of the remaining items of the array iterator. *)
Definition frontBiasedPartition (fuel : nat) (this : list T) (size : Z)
  : option (completion (list (list T))) :=
  let input := this in
  let firstLength := remainder (Z.of_nat (length input)) size in
  let '(output, inputPos) :=
    match firstLength with
    | Some firstLength =>
        if 0 <? firstLength then ([slice input 0 firstLength], firstLength)
        else ([], 0)
    | None => ([], 0)
    end in
  match frontBiased_loop fuel input size inputPos output with
  | Some (output, inputPos) =>
      match assert (inputPos =? Z.of_nat (length input)) with
      | Return _ => Some (Return output)
      | Throw e => Some (Throw e)
      end
  | None => None
  end.

(** *** takeOne, findMap and the built-in filter *)

(** [Iterator.prototype.takeOne]: the result and the iterator afterwards. *)
Definition takeOne (this : list T) : option T * list T :=
  match next this with
  | (Done, iter) => (None, iter)
  | (Yield v, iter) => (Some v, iter)
  end.

(** The [while (true)] loop of [findMap]: the result and the iterator
    afterwards. *)
Fixpoint findMap_loop (mapFn : T -> nat -> value) (iter : list T) (index : nat)
  : value * list T :=
  match iter with
  | [] => (VUndefined, [])
  | v :: rest =>
      let mapped := mapFn v index in
      if strict_neq mapped VUndefined then (mapped, rest)
      else findMap_loop mapFn rest (S index)
  end.

(** [Iterator.prototype.findMap] *)
Definition findMap (this : list T) (mapFn : T -> nat -> value) : value * list T :=
  findMap_loop mapFn this 0.

(** The built-in [Iterator.prototype.filter(predicate)]: its state is the
    upstream and the counter passed to the predicate. *)
Record filter_state : Type := Filter {
  f_iter : list T;
  f_counter : nat
}.

Fixpoint filter_loop (predicate : T -> nat -> bool) (iter : list T) (counter : nat)
  : IteratorResult T * filter_state :=
  match iter with
  | [] => (Done, Filter [] counter)
  | v :: rest =>
      if predicate v counter then (Yield v, Filter rest (S counter))
      else filter_loop predicate rest (S counter)
  end.

Definition filter_next (predicate : T -> nat -> bool) (st : filter_state)
  : IteratorResult T * filter_state :=
  filter_loop predicate (f_iter st) (f_counter st).

Definition filter (this : list T) : filter_state := Filter this 0.

End Adapters.

(** [Iterator.prototype.present]: [Iterator.from] returns the filtering
    iterator as it is. *)
Definition present_next : filter_state -> IteratorResult value * filter_state :=
  filter_next (fun item _ => strict_neq item VUndefined).

(** [Iterator.prototype.nonNullable] *)
Definition nonNullable_next : filter_state -> IteratorResult value * filter_state :=
  filter_next (fun item _ => strict_neq item VUndefined && strict_neq item VNull).

(** [Iterator.empty]: the iterator of the empty array. *)
Definition empty {T : Type} : list T := [].

End Iterator.

(** * Vocabulary of the specification *)

(** [is_index n i]: the number [n] is the integer [i]. *)
Definition is_index (n : number) (i : nat) : Prop :=
  isInteger n = true /\ toZ n = Z.of_nat i.

(** What reading a slot gives: a hole reads as [undefined]. *)
Definition slot_value (s : slot value) : value :=
  match s with
  | Hole => VUndefined
  | Elem v => v
  end.

Section Order.

Context {T : Type} (cmp : OrderFn T).

(** [a] is not after [b]. *)
Definition le_by (a b : T) : Prop := cmp a b <> Greater.

(** A comparator is a total order when swapping its arguments swaps [Less]
    and [Greater], and "not after" is transitive. *)
Record total_order : Prop := {
  cmp_antisym : forall a b, cmp a b = Less <-> cmp b a = Greater;
  cmp_trans : forall a b c, le_by a b -> le_by b c -> le_by a c
}.

(** Sorted: no element is after its successor. *)
Definition sorted (s : list T) : Prop := Sorted le_by s.

(** An index at which [v] can be inserted: nothing before it is after [v],
    and [v] is after nothing from it on. *)
Definition valid_insertion_index (s : list T) (v : T) (i : nat) : Prop :=
  (i <= length s)%nat /\
  Forall (fun x => le_by x v) (firstn i s) /\
  Forall (fun x => le_by v x) (skipn i s).

Definition leftmost_insertion_index (s : list T) (v : T) (i : nat) : Prop :=
  valid_insertion_index s v i /\
  forall j, valid_insertion_index s v j -> (i <= j)%nat.

Definition rightmost_insertion_index (s : list T) (v : T) (i : nat) : Prop :=
  valid_insertion_index s v i /\
  forall j, valid_insertion_index s v j -> (j <= i)%nat.

(** [k] is the index of the first / last element of [s] equal to [v]. *)
Definition first_equal_at (s : list T) (v : T) (k : nat) : Prop :=
  (exists x, s !! k = Some x /\ cmp x v = Equal) /\
  forall j y, (j < k)%nat -> s !! j = Some y -> cmp y v <> Equal.

Definition last_equal_at (s : list T) (v : T) (k : nat) : Prop :=
  (exists x, s !! k = Some x /\ cmp x v = Equal) /\
  forall j y, (k < j)%nat -> s !! j = Some y -> cmp y v <> Equal.

End Order.

(** How many items at the front of [l] the predicate accepts, the first of
    them being tested with index [i]: the items [skipWhile] discards. *)
Fixpoint skipped_prefix {T : Type} (predicate : T -> nat -> bool) (l : list T)
    (i : nat) : nat :=
  match l with
  | [] => O
  | x :: rest => if predicate x i then S (skipped_prefix predicate rest (S i)) else O
  end.

(** The group lengths of [L] items cut into groups of [k], short group last. *)
Definition chunk_lengths (k L : nat) : list nat :=
  replicate (L / k) k ++ (if (L mod k =? 0)%nat then [] else [(L mod k)%nat]).

(** The same lengths, short group first. *)
Definition front_chunk_lengths (k L : nat) : list nat :=
  (if (L mod k =? 0)%nat then [] else [(L mod k)%nat]) ++ replicate (L / k) k.

(** * Properties *)

(** ** Integral numbers *)

Lemma pow2_pos (e : N) : 0 < 2 ^ Z.of_N e.
Proof. apply Z.pow_pos_nonneg; lia. Qed.

Lemma isInteger_Fin m e :
  isInteger (Fin m e) = true -> m = 2 ^ Z.of_N e * toZ (Fin m e).
Proof.
  cbn [isInteger toZ]. intros Hm%Z.eqb_eq.
  pose proof (pow2_pos e) as Hp.
  rewrite (Z.div_mod m (2 ^ Z.of_N e)) at 1 by lia. lia.
Qed.

Lemma lt_zero_integer n : isInteger n = true -> lt_zero n = (toZ n <? 0).
Proof.
  destruct n as [m e| |neg]; try discriminate.
  intros Hi. pose proof (isInteger_Fin _ _ Hi) as Hm.
  pose proof (pow2_pos e) as Hp.
  cbn [lt_zero]. set (q := toZ (Fin m e)) in *.
  destruct (Z.ltb_spec m 0), (Z.ltb_spec q 0); try reflexivity; nia.
Qed.

Lemma ge_length_integer n len :
  isInteger n = true -> ge_length n len = (Z.of_nat len <=? toZ n).
Proof.
  destruct n as [m e| |neg]; try discriminate.
  intros Hi. pose proof (isInteger_Fin _ _ Hi) as Hm.
  pose proof (pow2_pos e) as Hp.
  cbn [ge_length]. set (q := toZ (Fin m e)) in *.
  destruct (Z.leb_spec (Z.of_nat len * 2 ^ Z.of_N e) m),
    (Z.leb_spec (Z.of_nat len) q); try reflexivity; nia.
Qed.

Lemma gt_length_integer n len :
  isInteger n = true -> gt_length n len = (Z.of_nat len <? toZ n).
Proof.
  destruct n as [m e| |neg]; try discriminate.
  intros Hi. pose proof (isInteger_Fin _ _ Hi) as Hm.
  pose proof (pow2_pos e) as Hp.
  cbn [gt_length]. set (q := toZ (Fin m e)) in *.
  destruct (Z.ltb_spec (Z.of_nat len * 2 ^ Z.of_N e) m),
    (Z.ltb_spec (Z.of_nat len) q); try reflexivity; nia.
Qed.

Lemma is_index_number_of_nat i : is_index (number_of_nat i) i.
Proof.
  split; cbn; [now rewrite Z.mod_1_r | now rewrite Z.div_1_r].
Qed.

Lemma toIndex_is_index n i : toIndex n = Some i <-> is_index n i.
Proof.
  unfold toIndex, is_index. split.
  - destruct (isInteger n) eqn:Hi; cbn [andb]; [|discriminate].
    rewrite lt_zero_integer by assumption.
    destruct (Z.ltb_spec (toZ n) 0); cbn [negb]; [discriminate|].
    intros [= <-]. split; [reflexivity | lia].
  - intros [Hi Hz]. rewrite Hi, lt_zero_integer by assumption. cbn [andb].
    destruct (Z.ltb_spec (toZ n) 0); [lia|]. cbn [negb].
    f_equal. lia.
Qed.

Lemma strict_neq_undefined v : strict_neq v VUndefined = true <-> v <> VUndefined.
Proof. destruct v; cbn; split; congruence. Qed.

(** ** Checked access: [get] and [removeIndex] *)

Lemma Object_get_Some (this : array) index v :
  Object_get this index = Some v <->
  exists i, is_index index i /\ this !! i = Some (Elem v).
Proof.
  unfold Object_get, hasOwn, read. split.
  - destruct (toIndex index) as [i|] eqn:Hk; [|discriminate].
    apply toIndex_is_index in Hk.
    destruct (this !! i) as [[|w]|] eqn:Hl; try discriminate.
    intros [= <-]. eauto.
  - intros (i & Hi%toIndex_is_index & Hl). now rewrite Hi, Hl.
Qed.

Lemma get_absent (this : array) (index : number) :
  (forall i v, is_index index i -> this !! i <> Some (Elem v)) ->
  Array.get this index = Return None.
Proof.
  intros Hno. unfold Array.get. f_equal.
  destruct (Object_get this index) as [v|] eqn:Hg; [|reflexivity].
  apply Object_get_Some in Hg as (i & Hi & Hl).
  now destruct (Hno i v Hi).
Qed.

(** C9: [get] never raises, whatever number it is given: it returns
    [Some v] when the number is an integer that is an assigned position of
    the array holding [v], and [None] in every other case. *)
Theorem get_total (this : array) (index : number) :
  (forall i v, is_index index i -> this !! i = Some (Elem v) ->
     Array.get this index = Return (Some v)) /\
  ((forall i v, is_index index i -> this !! i <> Some (Elem v)) ->
     Array.get this index = Return None).
Proof.
  split.
  - intros i v Hi Hl. unfold Array.get. f_equal. apply Object_get_Some. eauto.
  - apply get_absent.
Qed.

Lemma get_total_witness :
  Array.get [Hole; Elem VNull] (number_of_nat 1) = Return (Some VNull) /\
  Array.get [Hole; Elem VNull] (Fin 1 1) = Return None.
Proof.
  split.
  - apply (proj1 (get_total [Hole; Elem VNull] (number_of_nat 1)) 1%nat VNull).
    + split; reflexivity.
    + reflexivity.
  - apply (proj2 (get_total [Hole; Elem VNull] (Fin 1 1))).
    intros i v [Hi _]. discriminate Hi.
Defined.

(** C8, as the code has it: for an integer index outside [0, length) both
    [removeIndex] and [get] return [None] and leave the array alone; for an
    index that is not an integer [removeIndex] throws a [TypeError], while
    [get] returns [None]. *)
Theorem removeIndex_get_outside (Option_from : value -> option value)
    (this : array) (index : number) :
  (isInteger index = true ->
   toZ index < 0 \/ Z.of_nat (length this) <= toZ index ->
   Array.removeIndex Option_from this index = Return (None, this) /\
   Array.get this index = Return None) /\
  (isInteger index = false ->
   Array.removeIndex Option_from this index = Throw TypeError /\
   Array.get this index = Return None).
Proof.
  split.
  - intros Hi Hout. split.
    + unfold Array.removeIndex. rewrite Hi. cbn [negb].
      rewrite lt_zero_integer, ge_length_integer by assumption.
      destruct (Z.ltb_spec (toZ index) 0),
        (Z.leb_spec (Z.of_nat (length this)) (toZ index)); cbn [orb];
        try reflexivity; lia.
    + apply get_absent. intros i v [_ Hz] Hl.
      apply lookup_lt_Some in Hl. lia.
  - intros Hi. split.
    + unfold Array.removeIndex. now rewrite Hi.
    + apply get_absent. intros i v [Hi' _]. congruence.
Qed.

Lemma removeIndex_get_outside_witness :
  (Array.removeIndex (fun v => Some v) [Elem VNull] (number_of_Z 1)
     = Return (None, [Elem VNull]) /\
   Array.get [Elem VNull] (number_of_Z 1) = Return None) /\
  (Array.removeIndex (fun v => Some v) [Elem VNull] (Fin 1 1) = Throw TypeError /\
   Array.get [Elem VNull] (Fin 1 1) = Return None).
Proof.
  split.
  - apply (removeIndex_get_outside (fun v => Some v) [Elem VNull] (number_of_Z 1)).
    + reflexivity.
    + right. vm_compute. discriminate.
  - apply (removeIndex_get_outside (fun v => Some v) [Elem VNull] (Fin 1 1)).
    reflexivity.
Defined.

(** C8, as the spec states it, fails: [get] does not throw for an index that
    is not an integer. *)
Lemma get_non_integer_no_TypeError :
  ~ (forall (this : array) (index : number),
       isInteger index = false -> Array.get this index = Throw TypeError).
Proof.
  intros Hget.
  specialize (Hget [Elem VNull] (Fin 3 1) eq_refl). discriminate Hget.
Qed.

(** ** [present] and [nonNullable] on arrays *)

Lemma filter_defined (this : array) :
  Array.filter (fun value => strict_neq value VUndefined) this
  = List.filter (fun s => strict_neq (slot_value s) VUndefined) this.
Proof.
  induction this as [|[|v] rest IH]; cbn; [reflexivity|assumption|].
  rewrite IH. reflexivity.
Qed.

(** C10: [present] and [nonNullable] agree on every array: both return the
    slots whose value is not [undefined], in order, and leave [this] as it
    was. *)
Theorem present_nonNullable_agree (this : array) :
  Array.present this = Array.nonNullable this /\
  Array.present this
  = (List.filter (fun s => strict_neq (slot_value s) VUndefined) this, this).
Proof.
  split; [reflexivity|].
  unfold Array.present. now rewrite filter_defined.
Qed.

(** C7 fails on the code: [nonNullable] keeps [null]. *)
Theorem nonNullable_keeps_null :
  Array.nonNullable [Elem (VBool true); Elem VNull; Elem VUndefined; Elem (VBool false)]
  = ([Elem (VBool true); Elem VNull; Elem (VBool false)],
     [Elem (VBool true); Elem VNull; Elem VUndefined; Elem (VBool false)]).
Proof. reflexivity. Qed.

(** ** [getOrSet] *)

Section GetOrSetProperties.

Context `{Countable K} {W : Type}.

Implicit Types (h : Map.heap (K := K) (W := W)) (key : K).

(** C6, as the code has it: when the key is present with a value other than
    [undefined], the producer is not called, the stored value is returned
    and nothing changes; when the key is absent, the producer is called
    exactly once, its result is stored under the key in the map the call
    left behind, and returned. *)
Theorem getOrSet_spec key
    (defaultValue : gmap K value * W -> value * (gmap K value * W)) h :
  (forall v, Map.map h !! key = Some v -> v <> VUndefined ->
     Map.getOrSet key defaultValue h = (v, h)) /\
  (Map.map h !! key = None ->
     Map.getOrSet key defaultValue h
     = let '(v, (m, w)) := defaultValue (Map.map h, Map.world h) in
       (v, Map.Heap (<[key := v]> m) w (S (Map.calls h)))).
Proof.
  unfold Map.getOrSet, Map.get. split.
  - intros v -> Hv%strict_neq_undefined. now rewrite Hv.
  - intros ->. cbn. unfold Map.invoke.
    destruct (defaultValue _) as [v [m w]]. reflexivity.
Qed.

End GetOrSetProperties.

Lemma getOrSet_spec_witness :
  Map.getOrSet 1%nat (fun s => (VNull, s)) (Map.Heap {[1%nat := VBool true]} tt 0)
  = (VBool true, Map.Heap {[1%nat := VBool true]} tt 0%nat) /\
  Map.getOrSet 2%nat (fun s => (VNull, s)) (Map.Heap {[1%nat := VBool true]} tt 0)
  = (VNull, Map.Heap (<[2%nat := VNull]> {[1%nat := VBool true]}) tt 1%nat).
Proof.
  split.
  - apply (proj1 (getOrSet_spec 1%nat (fun s => (VNull, s))
                    (Map.Heap {[1%nat := VBool true]} tt 0)) (VBool true)).
    + reflexivity.
    + discriminate.
  - exact (proj2 (getOrSet_spec 2%nat (fun s => (VNull, s))
                    (Map.Heap {[1%nat := VBool true]} tt 0)) eq_refl).
Defined.

(** C6, as the spec states it, fails: a key that is present with the value
    [undefined] is treated as missing, so the producer is called and the
    stored value is replaced. *)
Lemma getOrSet_undefined_calls_producer :
  ~ (forall (m : gmap nat value) (key : nat) (produce : gmap nat value * unit -> _)
       (v : value),
       m !! key = Some v ->
       Map.getOrSet key produce (Map.Heap m tt 0) = (v, Map.Heap m tt 0%nat)).
Proof.
  intros Hspec.
  specialize (Hspec {[1%nat := VUndefined]} 1%nat (fun s => (VNull, s)) VUndefined
                (lookup_singleton_eq _ _)).
  apply (f_equal (fun r => Map.calls (snd r))) in Hspec.
  discriminate Hspec.
Qed.

(** ** [takeWhile] and [skipWhile] *)

Section TakeSkipProperties.

Local Open Scope nat_scope.

Context {T : Type} (predicate : T -> nat -> bool).

Lemma takeWhile_drain (l : list T) : forall i fuel,
  length l < fuel ->
  exists ys st,
    drain (Iterator.takeWhile_next predicate) fuel (Iterator.TakeWhile l i false)
    = Some (ys, st) /\
    length l = length (Iterator.tw_iter st) + length ys
               + (if Iterator.tw_done st then 1 else 0) /\
    (Iterator.tw_done st = true <->
     exists x, l !! length ys = Some x /\ predicate x (i + length ys) = false).
Proof.
  induction l as [|x l IH]; intros i [|fuel] Hfuel; try (cbn in Hfuel; lia).
  - exists [], (Iterator.TakeWhile [] i false). cbn. repeat split; try discriminate.
    intros (x & Hx & _). discriminate Hx.
  - cbn [drain Iterator.takeWhile_next Iterator.tw_done Iterator.tw_iter
         Iterator.tw_index Iterator.next negb].
    destruct (predicate x i) eqn:Hp.
    + destruct (IH (S i) fuel) as (ys & st & -> & Hlen & Hdone);
        [cbn in Hfuel; lia|].
      exists (x :: ys), st. cbn [length lookup list_lookup].
      split; [reflexivity|]. split; [lia|].
      rewrite Hdone. now replace (i + S (length ys)) with (S i + length ys) by lia.
    + exists [], (Iterator.TakeWhile l (S i) true). cbn.
      repeat split; try lia.
      exists x. now rewrite Nat.add_0_r.
Qed.

Lemma skipWhile_transparent (l : list T) : forall i fuel,
  length l < fuel ->
  drain (Iterator.skipWhile_next predicate) fuel (Iterator.SkipWhile l i true)
  = Some (l, Iterator.SkipWhile [] i true).
Proof.
  induction l as [|x l IH]; intros i [|fuel] Hfuel; try (cbn in Hfuel; lia).
  - reflexivity.
  - cbn [drain Iterator.skipWhile_next Iterator.sw_skipped Iterator.sw_iter
         Iterator.sw_index Iterator.next].
    rewrite IH by (cbn in Hfuel; lia). reflexivity.
Qed.

Lemma skipWhile_drain (l : list T) : forall i fuel,
  length l < fuel ->
  exists ys st,
    drain (Iterator.skipWhile_next predicate) fuel (Iterator.SkipWhile l i false)
    = Some (ys, st) /\
    Iterator.sw_iter st = [] /\
    ys = skipn (skipped_prefix predicate l i) l.
Proof.
  induction l as [|x l IH]; intros i [|fuel] Hfuel; try (cbn in Hfuel; lia).
  - exists [], (Iterator.SkipWhile [] i false). repeat split.
  - cbn [skipped_prefix]. destruct (predicate x i) eqn:Hp.
    + destruct (IH (S i) (S fuel)) as (ys & st & Hd & Hrest & Hys);
        [cbn in Hfuel |- *; lia|].
      exists ys, st. split; [|split; assumption].
      rewrite <- Hd.
      cbn [drain Iterator.skipWhile_next Iterator.sw_skipped Iterator.sw_iter
           Iterator.sw_index Iterator.skipWhile_loop].
      now rewrite Hp.
    + exists (x :: l), (Iterator.SkipWhile [] (S i) true). split; [|split; reflexivity].
      cbn [drain Iterator.skipWhile_next Iterator.sw_skipped Iterator.sw_iter
           Iterator.sw_index Iterator.skipWhile_loop].
      rewrite Hp. cbn [negb].
      rewrite skipWhile_transparent by (cbn in Hfuel; lia). reflexivity.
Qed.

Lemma skipped_prefix_le (l : list T) : forall i,
  skipped_prefix predicate l i <= length l.
Proof.
  induction l as [|x l IH]; intros i; cbn; [lia|].
  destruct (predicate x i); [specialize (IH (S i))|]; lia.
Qed.

(** C5, as the code has it. Driving [takeWhile] to its first [done] consumes
    as many upstream items as it yields, plus one when (and only when) it
    stopped on an item the predicate rejected. Driving [skipWhile] to its
    first [done] consumes the whole upstream (nothing is left in it): the
    items it yields plus the items it discarded at the front. *)
Theorem takeWhile_skipWhile_consumed (l : list T) (fuel : nat) :
  length l < fuel ->
  (exists ys st,
     drain (Iterator.takeWhile_next predicate) fuel (Iterator.takeWhile l)
     = Some (ys, st) /\
     length l - length (Iterator.tw_iter st)
     = length ys + (if Iterator.tw_done st then 1 else 0) /\
     (Iterator.tw_done st = true <->
      exists x, l !! length ys = Some x /\ predicate x (length ys) = false)) /\
  (exists ys st,
     drain (Iterator.skipWhile_next predicate) fuel (Iterator.skipWhile l)
     = Some (ys, st) /\
     Iterator.sw_iter st = [] /\
     length l - length (Iterator.sw_iter st)
     = length ys + skipped_prefix predicate l 0).
Proof.
  intros Hfuel. split.
  - destruct (takeWhile_drain l 0 fuel Hfuel) as (ys & st & Hd & Hlen & Hdone).
    exists ys, st. split; [exact Hd|]. split; [lia|exact Hdone].
  - destruct (skipWhile_drain l 0 fuel Hfuel) as (ys & st & Hd & Hrest & Hys).
    exists ys, st. split; [exact Hd|]. split; [exact Hrest|].
    pose proof (skipped_prefix_le l 0) as Hle.
    rewrite Hrest, Hys, length_skipn. cbn [length]. lia.
Qed.

End TakeSkipProperties.

Lemma takeWhile_skipWhile_consumed_witness :
  (3 < 4)%nat /\
  (exists ys st,
     drain (Iterator.takeWhile_next (fun v _ => v <? 2)) 4 (Iterator.takeWhile [1; 2; 3])
     = Some (ys, st) /\
     (length [1; 2; 3] - length (Iterator.tw_iter st)
      = length ys + (if Iterator.tw_done st then 1 else 0))%nat /\
     (Iterator.tw_done st = true <->
      exists x, [1; 2; 3] !! length ys = Some x /\ (x <? 2) = false)) /\
  (exists ys st,
     drain (Iterator.skipWhile_next (fun v _ => v <? 2)) 4 (Iterator.skipWhile [1; 2; 3])
     = Some (ys, st) /\
     Iterator.sw_iter st = [] /\
     (length [1; 2; 3] - length (Iterator.sw_iter st)
      = length ys + skipped_prefix (fun v (_ : nat) => v <? 2) [1; 2; 3] 0)%nat).
Proof.
  split; [lia|].
  apply (takeWhile_skipWhile_consumed (fun v _ => v <? 2) [1; 2; 3] 4). cbn. lia.
Defined.

(** C5, as the spec states it, fails for [skipWhile]: the items it discards
    are consumed but not yielded. *)
Lemma skipWhile_consumes_more_than_it_yields :
  ~ (forall (predicate : Z -> nat -> bool) (l ys : list Z) st,
       drain (Iterator.skipWhile_next predicate) (S (length l)) (Iterator.skipWhile l)
       = Some (ys, st) ->
       (length l - length (Iterator.sw_iter st))%nat = length ys).
Proof.
  intros Hspec.
  specialize (Hspec (fun v _ => v <? 2) [1; 2; 3] [2; 3]
                (Iterator.SkipWhile [] 2 true) eq_refl).
  discriminate Hspec.
Qed.

(** ** [partition] and [frontBiasedPartition] *)

Section PartitionProperties.

Local Open Scope nat_scope.

Context {T : Type}.

Implicit Types (l part iter : list T) (n : Z).

Lemma chunk_lengths_step k L :
  0 < k -> k <= L -> chunk_lengths k L = k :: chunk_lengths k (L - k).
Proof.
  intros Hk HL. unfold chunk_lengths.
  assert (Hd : L / k = S ((L - k) / k)).
  { replace L with (1 * k + (L - k)) at 1 by lia. now rewrite Nat.div_add_l by lia. }
  assert (Hm : L mod k = (L - k) mod k).
  { replace L with (L - k + 1 * k) at 1 by lia. apply Nat.Div0.mod_add. }
  rewrite Hd, Hm. reflexivity.
Qed.

Lemma chunk_lengths_small k L :
  0 < L -> L < k -> chunk_lengths k L = [L].
Proof.
  intros HL Hk. unfold chunk_lengths.
  rewrite Nat.div_small, Nat.mod_small by lia.
  destruct (Nat.eqb_spec L 0); [lia|reflexivity].
Qed.

Lemma chunk_lengths_0 k : chunk_lengths k 0 = [].
Proof.
  unfold chunk_lengths. now rewrite Nat.Div0.div_0_l, Nat.Div0.mod_0_l.
Qed.

Lemma ceil_div k L :
  0 < k -> (L + k - 1) / k = L / k + (if L mod k =? 0 then 0 else 1).
Proof.
  intros Hk.
  pose proof (Nat.div_mod_eq L k) as HL.
  pose proof (Nat.mod_upper_bound L k ltac:(lia)) as Hr.
  destruct (Nat.eqb_spec (L mod k) 0) as [H0|H0]; symmetry.
  - apply Nat.div_unique with (r := k - 1); lia.
  - apply Nat.div_unique with (r := L mod k - 1); lia.
Qed.

Lemma partition_loop_short n iter : forall part,
  (Z.of_nat (length part + length iter) < n)%Z ->
  Iterator.partition_loop n part iter
  = ((if 0 <? length (part ++ iter) then Yield (part ++ iter) else Done),
     Iterator.Partition [] true).
Proof.
  induction iter as [|v rest IH]; intros part Hlen; cbn [Iterator.partition_loop].
  - now rewrite app_nil_r.
  - cbn [length] in Hlen.
    destruct (Z.eqb_spec (Z.of_nat (length (part ++ [v]))) n) as [He|_].
    + rewrite length_app in He. cbn [length] in He. lia.
    + rewrite IH by (rewrite length_app; cbn [length]; lia).
      now rewrite <- app_assoc.
Qed.

Lemma partition_loop_full n iter : forall part,
  (Z.of_nat (length part) < n)%Z ->
  (n <= Z.of_nat (length part + length iter))%Z ->
  Iterator.partition_loop n part iter
  = (Yield (part ++ firstn (Z.to_nat n - length part) iter),
     Iterator.Partition (skipn (Z.to_nat n - length part) iter) false).
Proof.
  induction iter as [|v rest IH]; intros part Hlt Hle; cbn [length] in Hle; [lia|].
  cbn [Iterator.partition_loop].
  destruct (Z.eqb_spec (Z.of_nat (length (part ++ [v]))) n) as [He|Hne];
    rewrite length_app in *; cbn [length] in *.
  - replace (Z.to_nat n - length part) with 1 by lia. reflexivity.
  - rewrite IH by (rewrite ?length_app; cbn [length]; lia).
    rewrite length_app. cbn [length].
    replace (Z.to_nat n - length part) with (S (Z.to_nat n - (length part + 1))) by lia.
    cbn [firstn skipn]. now rewrite <- app_assoc.
Qed.

Lemma partition_drain n : (0 < n)%Z -> forall fuel l,
  length l < fuel ->
  exists groups st,
    drain (Iterator.partition_next n) fuel (Iterator.Partition l false)
    = Some (groups, st) /\
    concat groups = l /\
    length <$> groups = chunk_lengths (Z.to_nat n) (length l).
Proof.
  intros Hn. induction fuel as [|fuel IH]; intros l Hfuel; [lia|].
  cbn [drain Iterator.partition_next Iterator.p_done Iterator.p_iter].
  destruct (Z.lt_ge_cases (Z.of_nat (length l)) n) as [Hshort|Hfull].
  - rewrite partition_loop_short by (cbn [length]; lia). cbn [app].
    destruct l as [|x l].
    + exists [], (Iterator.Partition [] true). cbn. now rewrite chunk_lengths_0.
    + destruct fuel as [|fuel]; [cbn in Hfuel; lia|].
      exists [x :: l], (Iterator.Partition [] true). cbn [Nat.ltb Nat.leb length].
      split; [reflexivity|]. split; [cbn; now rewrite app_nil_r|].
      rewrite chunk_lengths_small by (cbn [length] in *; lia). reflexivity.
  - rewrite partition_loop_full by (cbn [length]; lia).
    cbn [length app]. rewrite Nat.sub_0_r.
    destruct (IH (skipn (Z.to_nat n) l)) as (groups & st & -> & Hcat & Hlens).
    { rewrite length_skipn. lia. }
    exists (firstn (Z.to_nat n) l :: groups), st.
    split; [reflexivity|]. split.
    + cbn [concat]. rewrite Hcat. apply firstn_skipn.
    + cbn [fmap list_fmap]. rewrite length_firstn, Nat.min_l by lia.
      rewrite (chunk_lengths_step (Z.to_nat n) (length l)) by lia.
      f_equal. rewrite <- length_skipn. exact Hlens.
Qed.

(** C3: for a positive [n], driving [partition] over [l] to the end yields
    [ceil (length l / n)] groups; every group but the last has length [n];
    no group is empty; and the groups concatenated are [l]. *)
Theorem partition_spec n l fuel :
  (0 < n)%Z -> length l < fuel ->
  exists groups st,
    drain (Iterator.partition_next n) fuel (Iterator.partition l) = Some (groups, st) /\
    Z.of_nat (length groups) = ((Z.of_nat (length l) + n - 1) / n)%Z /\
    (forall i g, groups !! i = Some g -> S i < length groups ->
       Z.of_nat (length g) = n) /\
    Forall (fun g => g <> []) groups /\
    concat groups = l.
Proof.
  intros Hn Hfuel.
  destruct (partition_drain n Hn fuel l Hfuel) as (groups & st & Hd & Hcat & Hlens).
  exists groups, st. split; [exact Hd|].
  set (k := Z.to_nat n) in *. set (L := length l) in *.
  assert (Hk : 0 < k) by (subst k; lia).
  pose proof (Nat.mod_upper_bound L k ltac:(lia)) as Hr.
  assert (Hcount : length groups = L / k + (if L mod k =? 0 then 0 else 1)).
  { rewrite <- (length_fmap length groups), Hlens. unfold chunk_lengths.
    rewrite length_app, length_replicate. now destruct (L mod k =? 0). }
  repeat split.
  - rewrite Hcount, <- ceil_div by assumption.
    replace n with (Z.of_nat k) by (subst k; lia).
    rewrite Nat2Z.inj_div. f_equal. lia.
  - intros i g Hg Hi.
    assert (Hlook : (length <$> groups) !! i = Some (length g))
      by (now rewrite list_lookup_fmap, Hg).
    rewrite Hlens in Hlook. unfold chunk_lengths in Hlook.
    rewrite lookup_app_l in Hlook
      by (rewrite length_replicate; destruct (L mod k =? 0); lia).
    apply lookup_replicate in Hlook as [-> _]. subst k. lia.
  - apply Forall_forall. intros g Hg%(list_elem_of_fmap_2 length) ->.
    rewrite Hlens in Hg. unfold chunk_lengths in Hg.
    apply elem_of_app in Hg as [Hg|Hg].
    + apply elem_of_replicate in Hg as [Hg _]. cbn in Hg. lia.
    + destruct (Nat.eqb_spec (L mod k) 0) as [|Hne]; [inversion Hg|].
      apply list_elem_of_singleton in Hg. cbn in Hg. lia.
  - exact Hcat.
Qed.

End PartitionProperties.

Lemma partition_spec_witness :
  0 < 2 /\ (length [1; 2; 3] < 4)%nat /\
  exists groups st,
    drain (Iterator.partition_next 2) 4 (Iterator.partition [1; 2; 3])
    = Some (groups, st) /\
    Z.of_nat (length groups) = (Z.of_nat (length [1; 2; 3]) + 2 - 1) / 2 /\
    (forall i g, groups !! i = Some g -> (S i < length groups)%nat ->
       Z.of_nat (length g) = 2) /\
    Forall (fun g => g <> []) groups /\
    concat groups = [1; 2; 3].
Proof.
  split; [lia|]. split; [cbn; lia|].
  apply (partition_spec 2 [1; 2; 3] 4); [lia | cbn; lia].
Defined.

Section FrontBiasedProperties.

Local Open Scope nat_scope.

Context {T : Type}.

Implicit Types (l : list T) (n : Z).

Lemma slice_chunk l (pos n : Z) :
  (0 <= pos)%Z -> (0 < n)%Z -> (pos + n <= Z.of_nat (length l))%Z ->
  Iterator.slice l pos (pos + n) = firstn (Z.to_nat n) (skipn (Z.to_nat pos) l).
Proof.
  intros Hpos Hn Hle. unfold Iterator.slice.
  destruct (Z.ltb_spec pos 0); [lia|].
  destruct (Z.ltb_spec (pos + n) 0); [lia|].
  rewrite !Z.min_l by lia. f_equal. lia.
Qed.

Lemma frontBiased_loop_spec l n : (0 < n)%Z -> forall q fuel pos output,
  (0 <= pos)%Z ->
  (Z.of_nat (length l) - pos = Z.of_nat q * n)%Z ->
  q <= fuel ->
  exists chunks,
    Iterator.frontBiased_loop fuel l n pos output
    = Some (output ++ chunks, Z.of_nat (length l)) /\
    concat chunks = skipn (Z.to_nat pos) l /\
    length <$> chunks = replicate q (Z.to_nat n).
Proof.
  intros Hn. induction q as [|q IH]; intros fuel pos output Hpos Hlen Hfuel.
  - exists []. replace pos with (Z.of_nat (length l)) by lia.
    rewrite Nat2Z.id, skipn_all, app_nil_r.
    split; [|split; reflexivity].
    destruct fuel; cbn [Iterator.frontBiased_loop]; now rewrite Z.ltb_irrefl.
  - destruct fuel as [|fuel]; [lia|]. cbn [Iterator.frontBiased_loop].
    destruct (Z.ltb_spec pos (Z.of_nat (length l))); [|nia].
    destruct (IH fuel (pos + n)%Z (output ++ [Iterator.slice l pos (pos + n)]))
      as (chunks & -> & Hcat & Hlens); [lia|lia|lia|].
    rewrite slice_chunk by nia.
    exists (firstn (Z.to_nat n) (skipn (Z.to_nat pos) l) :: chunks).
    split; [now rewrite <- app_assoc|]. split.
    + cbn [concat]. rewrite Hcat, Z2Nat.inj_add by lia.
      rewrite <- drop_drop. apply firstn_skipn.
    + cbn [fmap list_fmap replicate]. f_equal; [|exact Hlens].
      rewrite length_firstn, length_skipn. nia.
Qed.

(** C4: for a positive [n], [frontBiasedPartition] over [l] returns groups
    that concatenate to [l], whose lengths are those of [partition] with the
    short group of [length l mod n] items moved to the front; when the
    remainder is zero there is no short group. *)
Theorem frontBiasedPartition_spec n l fuel :
  (0 < n)%Z -> length l < fuel ->
  exists groups pgroups st,
    Iterator.frontBiasedPartition fuel l n = Some (Return groups) /\
    drain (Iterator.partition_next n) fuel (Iterator.partition l)
    = Some (pgroups, st) /\
    concat groups = l /\
    length <$> groups = front_chunk_lengths (Z.to_nat n) (length l) /\
    length <$> pgroups = chunk_lengths (Z.to_nat n) (length l) /\
    Permutation (length <$> groups) (length <$> pgroups).
Proof.
  intros Hn Hfuel.
  destruct (partition_drain n Hn fuel l Hfuel) as (pgroups & st & Hd & _ & Hplens).
  set (k := Z.to_nat n) in *. set (L := length l) in *.
  assert (Hk : 0 < k) by (subst k; lia).
  pose proof (Nat.div_mod_eq L k) as HL.
  pose proof (Nat.mod_upper_bound L k ltac:(lia)) as Hr.
  assert (Hrem : Z.rem (Z.of_nat L) n = Z.of_nat (L mod k)).
  { rewrite Z.rem_mod_nonneg by lia.
    replace n with (Z.of_nat k) by (subst k; lia). now rewrite Nat2Z.inj_mod. }
  assert (Hq : L / k <= fuel) by (subst L; nia).
  assert (Hgroups : exists groups,
    Iterator.frontBiasedPartition fuel l n = Some (Return groups) /\
    concat groups = l /\
    length <$> groups = front_chunk_lengths k L).
  { unfold Iterator.frontBiasedPartition, Iterator.remainder, front_chunk_lengths.
    destruct (Z.eqb_spec n 0); [lia|]. fold L. rewrite Hrem.
    destruct (Nat.eqb_spec (L mod k) 0) as [H0|H0].
    - rewrite H0. change (Z.of_nat 0) with 0%Z. rewrite Z.ltb_irrefl.
      cbv beta iota zeta.
      destruct (frontBiased_loop_spec l n Hn (L / k) fuel 0%Z [])
        as (chunks & -> & Hcat & Hlens); [lia|fold L; subst k; nia|lia|].
      fold L. rewrite Z.eqb_refl. cbn [Iterator.assert app].
      exists chunks. repeat split; assumption.
    - destruct (Z.ltb_spec 0 (Z.of_nat (L mod k))); [|lia].
      cbv beta iota zeta.
      destruct (frontBiased_loop_spec l n Hn (L / k) fuel (Z.of_nat (L mod k))
                  [Iterator.slice l 0 (Z.of_nat (L mod k))])
        as (chunks & -> & Hcat & Hlens); [lia|fold L; subst k; nia|lia|].
      fold L. rewrite Z.eqb_refl. cbn [Iterator.assert app].
      exists (Iterator.slice l 0 (Z.of_nat (L mod k)) :: chunks).
      split; [reflexivity|].
      pose proof (slice_chunk l 0 (Z.of_nat (L mod k))) as Hslice.
      rewrite Z.add_0_l in Hslice. rewrite Hslice by (fold L; lia).
      rewrite Nat2Z.id in *. cbn [Z.to_nat skipn concat fmap list_fmap app].
      split; [rewrite Hcat; apply firstn_skipn|].
      f_equal; [|exact Hlens].
      rewrite length_firstn, length_skipn. fold L. lia. }
  destruct Hgroups as (groups & Hf & Hcat & Hlens).
  exists groups, pgroups, st. repeat split; try assumption.
  rewrite Hlens, Hplens. apply Permutation_app_comm.
Qed.

End FrontBiasedProperties.

Lemma frontBiasedPartition_spec_witness :
  0 < 2 /\ (length [1; 2; 3] < 4)%nat /\
  exists groups pgroups st,
    Iterator.frontBiasedPartition 4 [1; 2; 3] 2 = Some (Return groups) /\
    drain (Iterator.partition_next 2) 4 (Iterator.partition [1; 2; 3])
    = Some (pgroups, st) /\
    concat groups = [1; 2; 3] /\
    length <$> groups = front_chunk_lengths (Z.to_nat 2) (length [1; 2; 3]) /\
    length <$> pgroups = chunk_lengths (Z.to_nat 2) (length [1; 2; 3]) /\
    Permutation (length <$> groups) (length <$> pgroups).
Proof.
  split; [lia|]. split; [cbn; lia|].
  apply (frontBiasedPartition_spec 2 [1; 2; 3] 4); [lia | cbn; lia].
Defined.

(** ** Ordered insertion *)

Lemma insert_at {A : Type} (this : list A) (v : A) (index : number) (i : nat) :
  is_index index i -> (i <= length this)%nat ->
  Array.insert this v index = Return (firstn i this ++ v :: skipn i this).
Proof.
  intros [Hint Hz] Hle. unfold Array.insert, Array.splice.
  rewrite Hint, gt_length_integer, lt_zero_integer by assumption. rewrite Hz.
  destruct (Z.ltb_spec (Z.of_nat (length this)) (Z.of_nat i)); [lia|].
  destruct (Z.ltb_spec (Z.of_nat i) 0); [lia|]. cbn [negb orb snd].
  rewrite Z.min_l by lia. rewrite Z.max_id, Z.min_l by lia.
  now rewrite Nat2Z.id, Nat.add_0_r.
Qed.

Section OrderFacts.

Local Open Scope nat_scope.

Context {T : Type} (cmp : OrderFn T) (Hcmp : total_order cmp).

Implicit Types (s : list T) (v x y : T).

Lemma le_by_total x y : le_by cmp x y \/ le_by cmp y x.
Proof.
  unfold le_by. destruct (cmp x y) eqn:Hxy; try (left; discriminate).
  right. intros Hyx. apply (cmp_antisym cmp Hcmp) in Hyx. congruence.
Qed.

Lemma not_Less_le x y : cmp x y <> Less <-> le_by cmp y x.
Proof.
  unfold le_by. now rewrite (cmp_antisym cmp Hcmp).
Qed.

Lemma Equal_le x y : cmp x y = Equal <-> le_by cmp x y /\ le_by cmp y x.
Proof.
  unfold le_by. split.
  - intros He. split; [congruence|].
    intros Hg. apply (cmp_antisym cmp Hcmp x y) in Hg. congruence.
  - intros [Hxy Hyx]. destruct (cmp x y) eqn:He; [|reflexivity|congruence].
    now apply (cmp_antisym cmp Hcmp) in He.
Qed.

Lemma Less_le_trans x y v : le_by cmp x y -> cmp y v = Less -> cmp x v = Less.
Proof.
  intros Hxy Hyv.
  destruct (cmp x v) eqn:Hxv; [reflexivity| |].
  - apply Equal_le in Hxv as [_ Hvx].
    assert (Hvy : le_by cmp v y) by (eapply (cmp_trans cmp Hcmp); eassumption).
    apply not_Less_le in Hvy. congruence.
  - assert (Hyv' : le_by cmp y v) by (unfold le_by; congruence).
    pose proof (cmp_trans cmp Hcmp _ _ _ Hxy Hyv'). unfold le_by in *. congruence.
Qed.

Lemma sorted_strongly s : sorted cmp s -> StronglySorted (le_by cmp) s.
Proof.
  apply Sorted.Sorted_StronglySorted. exact (cmp_trans cmp Hcmp).
Qed.

Lemma sorted_lookup s a b x y :
  sorted cmp s -> a < b -> s !! a = Some x -> s !! b = Some y -> le_by cmp x y.
Proof.
  intros Hs%sorted_strongly Hab Ha Hb.
  rewrite <- (firstn_skipn b s) in Hs.
  eapply StronglySorted_app_1_elem_of; [exact Hs| |].
  - apply elem_of_take. eauto.
  - apply list_elem_of_lookup. exists 0. now rewrite lookup_drop, Nat.add_0_r.
Qed.

Lemma sorted_lookup_le s a b x y :
  sorted cmp s -> a <= b -> s !! a = Some x -> s !! b = Some y -> le_by cmp x y.
Proof.
  intros Hs Hab Ha Hb. destruct (decide (a = b)) as [->|Hne].
  - assert (x = y) as -> by congruence.
    destruct (le_by_total y y); assumption.
  - eapply sorted_lookup; [eassumption| |eassumption..]. lia.
Qed.

(** Inserting at a valid index keeps the sequence sorted. *)
Lemma valid_insert_sorted s v i :
  sorted cmp s -> valid_insertion_index cmp s v i ->
  sorted cmp (firstn i s ++ v :: skipn i s).
Proof.
  intros Hs%sorted_strongly (_ & Hbefore & Hafter).
  rewrite <- (firstn_skipn i s) in Hs.
  apply StronglySorted_Sorted, StronglySorted_app_2.
  - intros x1 x2 Hx1 Hx2. apply elem_of_cons in Hx2 as [->|Hx2].
    + rewrite Forall_forall in Hbefore. now apply Hbefore.
    + eapply StronglySorted_app_1_elem_of; eassumption.
  - eapply StronglySorted_app_1_l, Hs.
  - apply StronglySorted_cons. split; [assumption|].
    eapply StronglySorted_app_1_r, Hs.
Qed.

(** The leftmost insertion index is where the first element equal to [v] is. *)
Lemma leftmost_first_equal s v i k :
  sorted cmp s -> leftmost_insertion_index cmp s v i ->
  first_equal_at cmp s v k -> i = k.
Proof.
  intros Hs [Hvalid Hleft] [(e & Hke & [He1 He2]%Equal_le) Hfirst].
  assert (Hk : k < length s) by (eapply lookup_lt_Some; eassumption).
  assert (Hik : i <= k).
  { apply Hleft. split; [lia|]. split; apply Forall_lookup; intros j x Hj.
    - apply lookup_take_Some in Hj as [Hj Hlt].
      eapply (cmp_trans cmp Hcmp); [|exact He1].
      eapply sorted_lookup; eassumption.
    - rewrite lookup_drop in Hj.
      eapply (cmp_trans cmp Hcmp); [exact He2|].
      eapply sorted_lookup_le; [eassumption| |eassumption..]. lia. }
  destruct (decide (i = k)) as [|Hne]; [assumption|exfalso].
  destruct Hvalid as (_ & _ & Hafter).
  destruct (lookup_lt_is_Some_2 s i) as [x Hx]; [lia|].
  apply (Hfirst i x); [lia|assumption|]. apply Equal_le. split.
  - eapply (cmp_trans cmp Hcmp); [|exact He1].
    eapply sorted_lookup; [eassumption| |eassumption..]. lia.
  - rewrite Forall_lookup in Hafter. apply (Hafter 0 x).
    now rewrite lookup_drop, Nat.add_0_r.
Qed.

(** The rightmost insertion index is right after the last element equal to
    [v]. *)
Lemma rightmost_last_equal s v i k :
  sorted cmp s -> rightmost_insertion_index cmp s v i ->
  last_equal_at cmp s v k -> i = S k.
Proof.
  intros Hs [Hvalid Hright] [(e & Hke & [He1 He2]%Equal_le) Hlast].
  assert (Hk : k < length s) by (eapply lookup_lt_Some; eassumption).
  assert (Hki : S k <= i).
  { apply Hright. split; [lia|]. split; apply Forall_lookup; intros j x Hj.
    - apply lookup_take_Some in Hj as [Hj Hlt].
      eapply (cmp_trans cmp Hcmp); [|exact He1].
      eapply sorted_lookup_le; [eassumption| |eassumption..]. lia.
    - rewrite lookup_drop in Hj.
      eapply (cmp_trans cmp Hcmp); [exact He2|].
      eapply sorted_lookup; [eassumption| |eassumption..]. lia. }
  destruct (decide (i = S k)) as [|Hne]; [assumption|exfalso].
  destruct Hvalid as (Hlen & Hbefore & _).
  destruct (lookup_lt_is_Some_2 s (S k)) as [x Hx]; [lia|].
  apply (Hlast (S k) x); [lia|assumption|]. apply Equal_le. split.
  - rewrite Forall_lookup in Hbefore. apply (Hbefore (S k) x).
    apply lookup_take_Some. split; [assumption|lia].
  - eapply (cmp_trans cmp Hcmp); [exact He2|].
    eapply sorted_lookup; [eassumption| |eassumption..]. lia.
Qed.

End OrderFacts.

(** *** The binary search of the model meets the contract of the bisections *)

Section BisectModel.

Local Open Scope nat_scope.

Context {T : Type}.

Implicit Types (s : list T) (v x y : T).

Lemma bisect_boundary (goRight : T -> bool) s (p : nat) :
  (forall j x, s !! j = Some x -> goRight x = true <-> j < p) ->
  forall fuel lo hi,
    lo <= p -> p <= hi -> hi <= length s -> hi - lo < fuel ->
    bisect fuel goRight s lo hi = p.
Proof.
  intros Hp. induction fuel as [|fuel IH]; intros lo hi Hlo Hhi Hlen Hfuel; [lia|].
  cbn [bisect]. destruct (Nat.ltb_spec lo hi) as [Hlt|Hge]; [|lia].
  set (mid := (lo + hi) / 2).
  assert (Hmid : lo <= mid < hi).
  { subst mid. split.
    - apply Nat.div_le_lower_bound; lia.
    - apply Nat.Div0.div_lt_upper_bound; lia. }
  destruct (lookup_lt_is_Some_2 s mid) as [x Hx]; [lia|]. rewrite Hx.
  destruct (goRight x) eqn:Hg.
  - apply (Hp mid x Hx) in Hg. apply IH; lia.
  - apply IH; try lia.
    destruct (Nat.le_gt_cases p mid) as [|Hlt']; [assumption|].
    apply (Hp mid x Hx) in Hlt'. congruence.
Qed.

Lemma monotone_boundary (f : T -> bool) s :
  (forall a b x y, a < b -> s !! a = Some x -> s !! b = Some y ->
     f y = true -> f x = true) ->
  exists p, p <= length s /\ forall j x, s !! j = Some x -> f x = true <-> j < p.
Proof.
  induction s as [|x0 s IH]; intros Hmono.
  - exists 0. split; [reflexivity|]. intros j x Hj. discriminate Hj.
  - destruct IH as (p & Hp & Hbound).
    { intros a b x y Hab Ha Hb. apply (Hmono (S a) (S b)); [lia|assumption..]. }
    destruct (f x0) eqn:Hf0.
    + exists (S p). split; [cbn; lia|]. intros [|j] x Hj.
      * injection Hj as <-. split; [lia|trivial].
      * cbn in Hj. rewrite (Hbound j x Hj). lia.
    + exists 0. split; [lia|]. intros j x Hj. split; [|lia].
      intros Hfx. destruct j as [|j].
      * injection Hj as <-. congruence.
      * rewrite (Hmono 0 (S j) x0 x) in Hf0; [discriminate|lia|reflexivity|assumption..].
Qed.

Context (cmp : OrderFn T) (Hcmp : total_order cmp).

Lemma is_Less_true (o : Ordering) : is_Less o = true <-> o = Less.
Proof. destruct o; cbn; split; congruence. Qed.

Lemma bisectLow_model_leftmost s v :
  sorted cmp s ->
  exists i, is_index (bisectLow_model cmp s v) i /\
            leftmost_insertion_index cmp s v i.
Proof.
  intros Hs.
  destruct (monotone_boundary (fun x => is_Less (cmp x v)) s) as (p & Hp & Hbound).
  { intros a b x y Hab Ha Hb Hy%is_Less_true. apply is_Less_true.
    eapply Less_le_trans; [eassumption| |eassumption].
    eapply sorted_lookup; eassumption. }
  exists p. unfold bisectLow_model.
  rewrite (bisect_boundary _ s p Hbound) by lia.
  split; [apply is_index_number_of_nat|].
  split; [split; [assumption|split]|]; try (apply Forall_lookup; intros j x Hj).
  - apply lookup_take_Some in Hj as [Hj Hlt].
    apply (Hbound j x Hj), is_Less_true in Hlt. unfold le_by. congruence.
  - rewrite lookup_drop in Hj. apply (not_Less_le cmp Hcmp).
    rewrite <- is_Less_true, (Hbound _ x Hj). lia.
  - intros j (Hj & _ & Hafter).
    destruct (Nat.le_gt_cases p j) as [|Hlt]; [assumption|exfalso].
    destruct (lookup_lt_is_Some_2 s j) as [x Hx]; [lia|].
    apply (Hbound j x Hx), is_Less_true in Hlt.
    rewrite Forall_lookup in Hafter.
    assert (Hvx : le_by cmp v x)
      by (apply (Hafter 0 x); now rewrite lookup_drop, Nat.add_0_r).
    now apply (not_Less_le cmp Hcmp) in Hvx.
Qed.

Lemma bisectHigh_model_rightmost s v :
  sorted cmp s ->
  exists i, is_index (bisectHigh_model cmp s v) i /\
            rightmost_insertion_index cmp s v i.
Proof.
  intros Hs.
  assert (Hgo : forall x, negb (is_Less (cmp v x)) = true <-> le_by cmp x v).
  { intros x. rewrite negb_true_iff, <- not_true_iff_false, is_Less_true.
    apply (not_Less_le cmp Hcmp). }
  destruct (monotone_boundary (fun x => negb (is_Less (cmp v x))) s)
    as (p & Hp & Hbound).
  { intros a b x y Hab Ha Hb Hy%Hgo. apply Hgo.
    eapply (cmp_trans cmp Hcmp); [|eassumption].
    eapply sorted_lookup; eassumption. }
  exists p. unfold bisectHigh_model.
  rewrite (bisect_boundary _ s p Hbound) by lia.
  split; [apply is_index_number_of_nat|].
  split; [split; [assumption|split]|]; try (apply Forall_lookup; intros j x Hj).
  - apply lookup_take_Some in Hj as [Hj Hlt].
    now apply (Hbound j x Hj), Hgo in Hlt.
  - rewrite lookup_drop in Hj.
    destruct (le_by_total cmp Hcmp v x) as [|Hxv]; [assumption|].
    apply Hgo, (Hbound _ x Hj) in Hxv. lia.
  - intros j (Hj & Hbefore & _).
    destruct (Nat.le_gt_cases j p) as [|Hlt]; [assumption|exfalso].
    destruct (lookup_lt_is_Some_2 s p) as [x Hx]; [lia|].
    rewrite Forall_lookup in Hbefore.
    assert (Hxv : le_by cmp x v)
      by (apply (Hbefore p x); apply lookup_take_Some; split; [assumption|lia]).
    apply Hgo, (Hbound p x Hx) in Hxv. lia.
Qed.

End BisectModel.

Lemma ascending_total_order : total_order ascending.
Proof.
  split; unfold le_by, ascending.
  - intros a b. rewrite (Z.compare_antisym a b).
    destruct (a ?= b); cbn; split; congruence.
  - intros a b c.
    destruct (Z.compare_spec a b), (Z.compare_spec b c), (Z.compare_spec a c);
      try congruence; lia.
Qed.

(** *** [insertOrdered] *)

Section InsertOrderedProperties.

Context {T : Type}.
Context (bisectLow bisectHigh : OrderFn T -> list T -> T -> number).
Context (cmp : OrderFn T).

Implicit Types (s : list T) (v : T).

(** C1: when [cmp] is a total order, [s] is sorted by it, and [bisectLow]
    and [bisectHigh] return the leftmost and the rightmost valid insertion
    index of [v] in [s], then [insertOrdered] with either policy (or none)
    returns normally, [s] has gained [v] and nothing else, and [s] is still
    sorted. *)
Theorem insertOrdered_sorted s v (dup : option duplicates) :
  total_order cmp ->
  sorted cmp s ->
  (exists i, is_index (bisectLow cmp s v) i /\ leftmost_insertion_index cmp s v i) ->
  (exists i, is_index (bisectHigh cmp s v) i /\ rightmost_insertion_index cmp s v i) ->
  exists s',
    insertOrdered bisectLow bisectHigh s v cmp dup = Return s' /\
    sorted cmp s' /\
    Permutation (v :: s) s'.
Proof.
  intros Hcmp Hs (il & Hil & Hleft & _) (ih & Hih & Hright & _).
  assert (Hat : forall index i,
    is_index index i -> valid_insertion_index cmp s v i ->
    exists s', Array.insert s v index = Return s' /\ sorted cmp s' /\
               Permutation (v :: s) s').
  { intros index i Hi Hvalid. exists (firstn i s ++ v :: skipn i s).
    split; [apply insert_at; [assumption|apply Hvalid]|].
    split; [now apply valid_insert_sorted|].
    rewrite <- (firstn_skipn i s) at 1. apply Permutation_middle. }
  unfold insertOrdered. destruct dup as [[|]|]; cbn [default]; eauto.
Qed.

(** C2: under the same assumptions, when [s] holds elements equal to [v],
    the first of them at index [kf] and the last at index [kl]: with ["low"]
    [v] is put at index [kf], the equal elements moving one place to the
    right; with ["high"] it is put at index [kl + 1], right after the last
    of them; and leaving the policy out is the same as ["high"]. *)
Theorem insertOrdered_duplicates s v (kf kl : nat) :
  total_order cmp ->
  sorted cmp s ->
  (exists i, is_index (bisectLow cmp s v) i /\ leftmost_insertion_index cmp s v i) ->
  (exists i, is_index (bisectHigh cmp s v) i /\ rightmost_insertion_index cmp s v i) ->
  first_equal_at cmp s v kf ->
  last_equal_at cmp s v kl ->
  insertOrdered bisectLow bisectHigh s v cmp (Some low)
  = Return (firstn kf s ++ v :: skipn kf s) /\
  insertOrdered bisectLow bisectHigh s v cmp (Some high)
  = Return (firstn (S kl) s ++ v :: skipn (S kl) s) /\
  insertOrdered bisectLow bisectHigh s v cmp None
  = insertOrdered bisectLow bisectHigh s v cmp (Some high).
Proof.
  intros Hcmp Hs (il & Hil & Hleft) (ih & Hih & Hright) Hfirst Hlast.
  pose proof (leftmost_first_equal cmp Hcmp s v il kf Hs Hleft Hfirst) as ->.
  pose proof (rightmost_last_equal cmp Hcmp s v ih kl Hs Hright Hlast) as ->.
  unfold insertOrdered. cbn [default].
  split; [|split; [|reflexivity]]; apply insert_at; try assumption.
  - exact (proj1 (proj1 Hleft)).
  - exact (proj1 (proj1 Hright)).
Qed.

End InsertOrderedProperties.

Lemma sorted_1335 : sorted ascending [1; 3; 3; 5].
Proof. repeat constructor; discriminate. Qed.

Lemma insertOrdered_sorted_witness :
  exists s',
    insertOrdered bisectLow_model bisectHigh_model [1; 3; 3; 5] 3 ascending (Some low)
    = Return s' /\
    sorted ascending s' /\
    Permutation (3 :: [1; 3; 3; 5]) s'.
Proof.
  apply (insertOrdered_sorted bisectLow_model bisectHigh_model ascending
           [1; 3; 3; 5] 3 (Some low)).
  - exact ascending_total_order.
  - exact sorted_1335.
  - exact (bisectLow_model_leftmost ascending ascending_total_order _ 3 sorted_1335).
  - exact (bisectHigh_model_rightmost ascending ascending_total_order _ 3 sorted_1335).
Defined.

Lemma insertOrdered_duplicates_witness :
  insertOrdered bisectLow_model bisectHigh_model [1; 3; 3; 5] 3 ascending (Some low)
  = Return (firstn 1 [1; 3; 3; 5] ++ 3 :: skipn 1 [1; 3; 3; 5]) /\
  insertOrdered bisectLow_model bisectHigh_model [1; 3; 3; 5] 3 ascending (Some high)
  = Return (firstn 3 [1; 3; 3; 5] ++ 3 :: skipn 3 [1; 3; 3; 5]) /\
  insertOrdered bisectLow_model bisectHigh_model [1; 3; 3; 5] 3 ascending None
  = insertOrdered bisectLow_model bisectHigh_model [1; 3; 3; 5] 3 ascending (Some high).
Proof.
  apply (insertOrdered_duplicates bisectLow_model bisectHigh_model ascending
           [1; 3; 3; 5] 3 1 2).
  - exact ascending_total_order.
  - exact sorted_1335.
  - exact (bisectLow_model_leftmost ascending ascending_total_order _ 3 sorted_1335).
  - exact (bisectHigh_model_rightmost ascending ascending_total_order _ 3 sorted_1335).
  - split; [exists 3; split; reflexivity|].
    intros [|j] y Hj Hy; [|lia]. injection Hy as <-. discriminate.
  - split; [exists 3; split; reflexivity|].
    intros [|[|[|[|j]]]] y Hj Hy; try lia; try discriminate Hy.
    injection Hy as <-. discriminate.
Defined.

(** The scenarios of the test suite. *)
Example insertOrdered_scenario :
  insertOrdered bisectLow_model bisectHigh_model [1; 3; 5; 7; 9] 6 ascending None
  = Return [1; 3; 5; 6; 7; 9].
Proof. reflexivity. Qed.

Example insert_scenario :
  Array.insert [1; 2; 3; 4; 5] 1337 (number_of_Z 3) = Return [1; 2; 3; 1337; 4; 5] /\
  Array.insert [1; 2; 3; 1337; 4; 5] 1337 (number_of_Z 10) = Throw RangeError.
Proof. split; reflexivity. Qed.

Example partition_scenario :
  drain (Iterator.partition_next 2) 5 (Iterator.partition [1; 2; 3])
  = Some ([[1; 2]; [3]], Iterator.Partition [] true) /\
  Iterator.frontBiasedPartition 5 [1; 2; 3] 2 = Some (Return [[1]; [2; 3]]).
Proof. split; reflexivity. Qed.

(** * Further properties of the code *)

(** ** [insert] and [removeIndex] *)

Section InsertRemoveProperties.

Local Open Scope nat_scope.

Lemma insert_lookup {A : Type} (this : list A) (v : A) (i : nat) :
  i <= length this ->
  length (firstn i this ++ v :: skipn i this) = S (length this) /\
  (firstn i this ++ v :: skipn i this) !! i = Some v /\
  (forall j, j < i -> (firstn i this ++ v :: skipn i this) !! j = this !! j) /\
  (forall j, i <= j -> (firstn i this ++ v :: skipn i this) !! S j = this !! j).
Proof.
  intros Hi.
  assert (Hlen : length (firstn i this) = i) by (rewrite length_firstn; lia).
  repeat split.
  - rewrite length_app, Hlen. cbn [length]. rewrite length_skipn. lia.
  - rewrite lookup_app_r by lia. now rewrite Hlen, Nat.sub_diag.
  - intros j Hj. rewrite lookup_app_l by lia. now apply lookup_take_lt.
  - intros j Hj. rewrite lookup_app_r by lia. rewrite Hlen.
    replace (S j - i) with (S (j - i)) by lia. cbn [lookup list_lookup].
    change (skipn i this !! (j - i) = this !! j).
    rewrite lookup_drop. f_equal. lia.
Qed.

(** X1: [insert] at an integer index within [0, length] returns normally; the
    array is one longer, holds the value at that index, is unchanged before
    it and shifted by one place after it. At [index = length] it appends. *)
Theorem insert_in_range {A : Type} (this : list A) (v : A) (index : number) (i : nat) :
  is_index index i -> i <= length this ->
  exists this',
    Array.insert this v index = Return this' /\
    length this' = S (length this) /\
    this' !! i = Some v /\
    (forall j, j < i -> this' !! j = this !! j) /\
    (forall j, i <= j -> this' !! S j = this !! j) /\
    (i = length this -> this' = this ++ [v]).
Proof.
  intros Hidx Hi. exists (firstn i this ++ v :: skipn i this).
  split; [now apply insert_at|].
  destruct (insert_lookup this v i Hi) as (Hlen & Hat & Hbefore & Hafter).
  repeat split; try assumption.
  intros ->. now rewrite firstn_all, skipn_all.
Qed.

(** X2: [insert] returns normally exactly for an integer index within
    [0, length]; it throws a [TypeError] for an index that is not an integer
    and a [RangeError] for an integer outside the range. *)
Theorem insert_errors {A : Type} (this : list A) (v : A) (index : number) :
  ((exists this', Array.insert this v index = Return this') <->
   isInteger index = true /\ (0 <= toZ index <= Z.of_nat (length this))%Z) /\
  (Array.insert this v index = Throw TypeError <-> isInteger index = false) /\
  (Array.insert this v index = Throw RangeError <->
   isInteger index = true /\
   (toZ index < 0 \/ Z.of_nat (length this) < toZ index)%Z).
Proof.
  assert (Hcases :
    (isInteger index = false /\ Array.insert this v index = Throw TypeError) \/
    (isInteger index = true /\
     (toZ index < 0 \/ Z.of_nat (length this) < toZ index)%Z /\
     Array.insert this v index = Throw RangeError) \/
    (isInteger index = true /\ (0 <= toZ index <= Z.of_nat (length this))%Z /\
     exists this', Array.insert this v index = Return this')).
  { unfold Array.insert. destruct (isInteger index) eqn:Hint; cbn [negb]; [|tauto].
    rewrite gt_length_integer, lt_zero_integer by assumption. right.
    destruct (Z.ltb_spec (Z.of_nat (length this)) (toZ index)) as [Hhi|Hhi],
      (Z.ltb_spec (toZ index) 0) as [Hlo|Hlo]; cbn [orb];
      [left; split; [reflexivity|split; [lia|reflexivity]] ..
      |right; split; [reflexivity|split; [lia|eauto]]]. }
  destruct Hcases as [(Hint & ->)|[(Hint & Hr & ->)|(Hint & Hr & this' & ->)]];
    rewrite Hint; (split; [|split]); split.
  - intros [? [=]].
  - intros [[=] _].
  - reflexivity.
  - reflexivity.
  - intros [=].
  - intros [[=] _].
  - intros [? [=]].
  - intros [_ ?]. lia.
  - intros [=].
  - intros [=].
  - intros _. now split.
  - reflexivity.
  - intros _. now split.
  - intros _. eauto.
  - intros [=].
  - intros [=].
  - intros [=].
  - intros [_ ?]. lia.
Qed.

Lemma take1_drop {A : Type} (this : list A) (i : nat) (s : A) :
  this !! i = Some s -> firstn 1 (skipn i this) = [s].
Proof.
  intros Hs. rewrite <- (Nat.add_0_r i), <- lookup_drop in Hs.
  destruct (skipn i this) as [|x rest]; [discriminate|].
  injection Hs as ->. reflexivity.
Qed.

Variable Option_from : value -> option value.

Lemma removeIndex_at (this : array) (index : number) (i : nat) (s : slot value) :
  is_index index i -> this !! i = Some s ->
  Array.removeIndex Option_from this index
  = Return (Option_from (slot_value s), firstn i this ++ skipn (S i) this).
Proof.
  intros [Hint Hz] Hs.
  assert (Hi : i < length this) by (eapply lookup_lt_Some; eassumption).
  unfold Array.removeIndex, Array.splice.
  rewrite Hint, lt_zero_integer, ge_length_integer by assumption. rewrite Hz.
  destruct (Z.ltb_spec (Z.of_nat i) 0); [lia|].
  destruct (Z.leb_spec (Z.of_nat (length this)) (Z.of_nat i)); [lia|].
  cbn [negb orb]. rewrite (Z.min_l (Z.of_nat i)) by lia.
  rewrite Z.max_l, Z.min_l by lia. rewrite Nat2Z.id.
  change (Z.to_nat 1) with 1. rewrite (take1_drop this i s Hs).
  cbn [app]. rewrite Nat.add_1_r.
  replace (Array.pop [s]) with (slot_value s) by (now destruct s).
  reflexivity.
Qed.

(** X3: [removeIndex] at an integer index within [0, length) takes the element
    out: the array keeps the other elements in order and is one shorter, and
    the result is [Option.from] of what the position read as (a hole reads
    as [undefined]). *)
Theorem removeIndex_in_range (this : array) (index : number) (i : nat) (s : slot value) :
  is_index index i -> this !! i = Some s ->
  exists this',
    Array.removeIndex Option_from this index
    = Return (Option_from (slot_value s), this') /\
    this' = firstn i this ++ skipn (S i) this /\
    S (length this') = length this /\
    (forall j, j < i -> this' !! j = this !! j) /\
    (forall j, i <= j -> this' !! j = this !! S j).
Proof.
  intros Hidx Hs.
  assert (Hi : i < length this) by (eapply lookup_lt_Some; eassumption).
  exists (firstn i this ++ skipn (S i) this).
  assert (Hlen : length (firstn i this) = i) by (rewrite length_firstn; lia).
  split; [now apply removeIndex_at|]. split; [reflexivity|]. repeat split.
  - rewrite length_app, Hlen, length_skipn. lia.
  - intros j Hj. rewrite lookup_app_l by lia. now apply lookup_take_lt.
  - intros j Hj. rewrite lookup_app_r by lia. rewrite Hlen, lookup_drop.
    f_equal. lia.
Qed.

(** X4: Inserting a value and removing the same index again gives the array
    back, the removed value being [Option.from] of the inserted one. *)
Theorem insert_removeIndex (this : array) (v : value) (index : number) (i : nat) :
  is_index index i -> i <= length this ->
  exists this',
    Array.insert this (Elem v) index = Return this' /\
    Array.get this' index = Return (Some v) /\
    Array.removeIndex Option_from this' index = Return (Option_from v, this).
Proof.
  intros Hidx Hi. exists (firstn i this ++ Elem v :: skipn i this).
  destruct (insert_lookup this (Elem v) i Hi) as (Hlen & Hat & _ & _).
  split; [now apply insert_at|]. split.
  - unfold Array.get. f_equal. apply Object_get_Some. eauto.
  - rewrite (removeIndex_at _ index i (Elem v) Hidx Hat). cbn [slot_value].
    assert (Hl : length (firstn i this) = i) by (rewrite length_firstn; lia).
    assert (Hback : firstn i (firstn i this ++ Elem v :: skipn i this)
                    ++ skipn (S i) (firstn i this ++ Elem v :: skipn i this) = this).
    { rewrite (take_app_length' _ _ i (eq_sym Hl)).
      replace (S i) with (length (firstn i this) + 1) by lia.
      rewrite <- drop_drop, drop_app_length.
      change (skipn 1 (Elem v :: skipn i this)) with (skipn i this).
      apply firstn_skipn. }
    now rewrite Hback.
Qed.

End InsertRemoveProperties.

Lemma insert_in_range_witness :
  exists this',
    Array.insert [1; 2; 3] 7 (number_of_nat 3) = Return this' /\
    length this' = S (length [1; 2; 3]) /\
    this' !! 3%nat = Some 7 /\
    (forall j, (j < 3)%nat -> this' !! j = [1; 2; 3] !! j) /\
    (forall j, (3 <= j)%nat -> this' !! S j = [1; 2; 3] !! j) /\
    (3%nat = length [1; 2; 3] -> this' = [1; 2; 3] ++ [7]).
Proof.
  apply (insert_in_range [1; 2; 3] 7 (number_of_nat 3) 3).
  - split; reflexivity.
  - cbn. lia.
Defined.

Lemma removeIndex_in_range_witness :
  exists this',
    Array.removeIndex (fun v => Some v) [Elem VNull; Hole; Elem (VBool true)]
      (number_of_nat 0)
    = Return (Some (slot_value (Elem VNull)), this') /\
    this' = firstn 0 [Elem VNull; Hole; Elem (VBool true)]
            ++ skipn 1 [Elem VNull; Hole; Elem (VBool true)] /\
    S (length this') = length [Elem VNull; Hole; Elem (VBool true)] /\
    (forall j, (j < 0)%nat -> this' !! j = [Elem VNull; Hole; Elem (VBool true)] !! j) /\
    (forall j, (0 <= j)%nat ->
       this' !! j = [Elem VNull; Hole; Elem (VBool true)] !! S j).
Proof.
  apply (removeIndex_in_range (fun v => Some v)
           [Elem VNull; Hole; Elem (VBool true)] (number_of_nat 0) 0 (Elem VNull)).
  - split; reflexivity.
  - reflexivity.
Defined.

Lemma insert_removeIndex_witness :
  exists this',
    Array.insert [Elem VNull; Hole] (Elem (VBool true)) (number_of_nat 1) = Return this' /\
    Array.get this' (number_of_nat 1) = Return (Some (VBool true)) /\
    Array.removeIndex (fun v => Some v) this' (number_of_nat 1)
    = Return (Some (VBool true), [Elem VNull; Hole]).
Proof.
  apply (insert_removeIndex (fun v => Some v) [Elem VNull; Hole] (VBool true)
           (number_of_nat 1) 1).
  - split; reflexivity.
  - cbn. lia.
Defined.

(** ** [remove] and [removeFn] *)

Section RemoveProperties.

Local Open Scope nat_scope.

Variable Option_from : value -> option value.

Lemma indexOf_from_none (this : array) (v : value) : forall k,
  (forall j x, this !! j = Some (Elem x) -> strict_eq x v = false) ->
  Array.indexOf_from this v k = (-1)%Z.
Proof.
  induction this as [|[|x] rest IH]; intros k Hnone; cbn [Array.indexOf_from].
  - reflexivity.
  - apply IH. intros j y Hj. exact (Hnone (S j) y Hj).
  - rewrite (Hnone 0 x eq_refl). apply IH. intros j y Hj. exact (Hnone (S j) y Hj).
Qed.

Lemma indexOf_from_first (this : array) (v : value) : forall k j x,
  this !! j = Some (Elem x) -> strict_eq x v = true ->
  (forall j' x', j' < j -> this !! j' = Some (Elem x') -> strict_eq x' v = false) ->
  Array.indexOf_from this v k = Z.of_nat (k + j).
Proof.
  induction this as [|s rest IH]; intros k j x Hj Hx Hfirst; [discriminate Hj|].
  destruct j as [|j].
  - injection Hj as ->. cbn [Array.indexOf_from]. rewrite Hx. f_equal. lia.
  - assert (Hrest : Array.indexOf_from rest v (S k) = Z.of_nat (k + S j)).
    { rewrite (IH (S k) j x Hj Hx); [f_equal; lia|].
      intros j' x' Hlt Hj'. apply (Hfirst (S j') x'); [lia|exact Hj']. }
    destruct s as [|y]; cbn [Array.indexOf_from]; [exact Hrest|].
    rewrite (Hfirst 0 y); [exact Hrest|lia|reflexivity].
Qed.

Lemma findIndex_from_none predicate (obj rest : array) : forall k,
  (forall j s, rest !! j = Some s -> predicate (slot_value s) (k + j) obj = false) ->
  Array.findIndex_from predicate obj rest k = (-1)%Z.
Proof.
  induction rest as [|s rest IH]; intros k Hnone; cbn [Array.findIndex_from].
  - reflexivity.
  - change (match s with Hole => VUndefined | Elem v => v end) with (slot_value s).
    pose proof (Hnone 0 s eq_refl) as H0. rewrite Nat.add_0_r in H0. rewrite H0.
    apply IH. intros j s' Hj.
    replace (S k + j) with (k + S j) by lia. exact (Hnone (S j) s' Hj).
Qed.

Lemma findIndex_from_first predicate (obj rest : array) : forall k j s,
  rest !! j = Some s -> predicate (slot_value s) (k + j) obj = true ->
  (forall j' s', j' < j -> rest !! j' = Some s' ->
     predicate (slot_value s') (k + j') obj = false) ->
  Array.findIndex_from predicate obj rest k = Z.of_nat (k + j).
Proof.
  induction rest as [|s0 rest IH]; intros k j s Hj Hs Hfirst; [discriminate Hj|].
  cbn [Array.findIndex_from].
  change (match s0 with Hole => VUndefined | Elem v => v end) with (slot_value s0).
  destruct j as [|j].
  - injection Hj as ->. rewrite Nat.add_0_r in *. now rewrite Hs.
  - pose proof (Hfirst 0 s0 ltac:(lia) eq_refl) as H0.
    rewrite Nat.add_0_r in H0. rewrite H0.
    rewrite (IH (S k) j s Hj); [f_equal; lia| |].
    + now replace (S k + j) with (k + S j) by lia.
    + intros j' s' Hlt Hj'. replace (S k + j') with (k + S j') by lia.
      apply (Hfirst (S j') s'); [lia|exact Hj'].
Qed.

Lemma removeIndex_minus_one (this : array) :
  Array.removeIndex Option_from this (number_of_Z (-1)) = Return (None, this).
Proof. reflexivity. Qed.

(** X5: [remove] never throws. When no element is [===] to the value it returns
    [None] and leaves the array alone; otherwise it takes out the first
    element that is, keeps the others in order, and returns [Option.from]
    of the element taken out. *)
Theorem remove_spec (this : array) (v : value) :
  ((forall j x, this !! j = Some (Elem x) -> strict_eq x v = false) ->
   Array.remove Option_from this v = Return (None, this)) /\
  (forall j x,
     this !! j = Some (Elem x) -> strict_eq x v = true ->
     (forall j' x', j' < j -> this !! j' = Some (Elem x') -> strict_eq x' v = false) ->
     Array.remove Option_from this v
     = Return (Option_from x, firstn j this ++ skipn (S j) this)).
Proof.
  unfold Array.remove, Array.indexOf. split.
  - intros Hnone. rewrite (indexOf_from_none this v 0 Hnone).
    apply removeIndex_minus_one.
  - intros j x Hj Hx Hfirst.
    rewrite (indexOf_from_first this v 0 j x Hj Hx Hfirst), Nat.add_0_l.
    exact (removeIndex_at Option_from this _ j (Elem x) (is_index_number_of_nat j) Hj).
Qed.

(** X6: [removeFn] never throws (for a predicate that does not). When the
    predicate accepts no position, a hole being read as [undefined], it
    returns [None] and leaves the array alone; otherwise it takes out the
    first position the predicate accepts and returns [Option.from] of what
    that position read as. *)
Theorem removeFn_spec (this : array) (predicate : value -> nat -> array -> bool) :
  ((forall j s, this !! j = Some s -> predicate (slot_value s) j this = false) ->
   Array.removeFn Option_from this predicate = Return (None, this)) /\
  (forall j s,
     this !! j = Some s -> predicate (slot_value s) j this = true ->
     (forall j' s', j' < j -> this !! j' = Some s' ->
        predicate (slot_value s') j' this = false) ->
     Array.removeFn Option_from this predicate
     = Return (Option_from (slot_value s), firstn j this ++ skipn (S j) this)).
Proof.
  unfold Array.removeFn, Array.findIndex. split.
  - intros Hnone. rewrite (findIndex_from_none predicate this this 0 Hnone).
    apply removeIndex_minus_one.
  - intros j s Hj Hs Hfirst.
    rewrite (findIndex_from_first predicate this this 0 j s Hj Hs Hfirst), Nat.add_0_l.
    exact (removeIndex_at Option_from this _ j s (is_index_number_of_nat j) Hj).
Qed.

End RemoveProperties.

Lemma remove_spec_witness :
  Array.remove (fun v => Some v) [Elem VNull; Elem (VBool true)] (VBool false)
  = Return (None, [Elem VNull; Elem (VBool true)]) /\
  Array.remove (fun v => Some v) [Elem VNull; Elem (VBool true)] (VBool true)
  = Return (Some (VBool true),
            firstn 1 [Elem VNull; Elem (VBool true)]
            ++ skipn 2 [Elem VNull; Elem (VBool true)]).
Proof.
  split.
  - apply (proj1 (remove_spec (fun v => Some v) [Elem VNull; Elem (VBool true)]
                    (VBool false))).
    intros [|[|j]] x Hj; try discriminate Hj; injection Hj as <-; reflexivity.
  - apply (proj2 (remove_spec (fun v => Some v) [Elem VNull; Elem (VBool true)]
                    (VBool true)) 1%nat (VBool true)); try reflexivity.
    intros [|j'] x' Hlt Hj'; [|lia]. injection Hj' as <-. reflexivity.
Defined.

Lemma removeFn_spec_witness :
  Array.removeFn (fun v => Some v) [Elem VNull; Hole]
    (fun v _ _ => strict_eq v (VBool true))
  = Return (None, [Elem VNull; Hole]) /\
  Array.removeFn (fun v => Some v) [Elem VNull; Hole]
    (fun v _ _ => strict_eq v VUndefined)
  = Return (Some (slot_value Hole), firstn 1 [Elem VNull; Hole] ++ skipn 2 [Elem VNull; Hole]).
Proof.
  split.
  - apply (proj1 (removeFn_spec (fun v => Some v) [Elem VNull; Hole]
                    (fun v _ _ => strict_eq v (VBool true)))).
    intros [|[|j]] s Hj; try discriminate Hj; injection Hj as <-; reflexivity.
  - apply (proj2 (removeFn_spec (fun v => Some v) [Elem VNull; Hole]
                    (fun v _ _ => strict_eq v VUndefined)) 1%nat Hole); try reflexivity.
    intros [|j'] s' Hlt Hj'; [|lia]. injection Hj' as <-. reflexivity.
Defined.

(** ** [present] on arrays once more *)

Lemma filter_idempotent (fn : value -> bool) (this : array) :
  Array.filter fn (Array.filter fn this) = Array.filter fn this.
Proof.
  induction this as [|[|v] rest IH]; cbn [Array.filter]; try assumption; [reflexivity|].
  destruct (fn v) eqn:Hv; [|assumption].
  cbn [Array.filter]. now rewrite Hv, IH.
Qed.

Lemma filter_dense (fn : value -> bool) (this : array) :
  Forall (fun s => exists v, s = Elem v /\ fn v = true) (Array.filter fn this).
Proof.
  induction this as [|[|v] rest IH]; cbn [Array.filter]; try assumption; [constructor|].
  destruct (fn v) eqn:Hv; [|assumption].
  constructor; [eauto|assumption].
Qed.

(** X7: The copy [present] returns has no hole and no [undefined] in it, is not
    longer than the array, and applying [present] to it changes nothing. *)
Theorem present_dense_idempotent (this : array) :
  Forall (fun s => exists v, s = Elem v /\ v <> VUndefined) (fst (Array.present this)) /\
  (length (fst (Array.present this)) <= length this)%nat /\
  fst (Array.present (fst (Array.present this))) = fst (Array.present this).
Proof.
  unfold Array.present. cbn [fst]. split; [|split].
  - eapply Forall_impl; [apply filter_dense|].
    intros s (v & -> & Hv%strict_neq_undefined). eauto.
  - rewrite filter_defined. apply List.filter_length_le.
  - apply filter_idempotent.
Qed.

(** ** [getOrSet] once more *)

Section GetOrSetAgain.

Context `{Countable K} {W : Type}.

Implicit Types (h : Map.heap (K := K) (W := W)) (key : K).

(** X8: Whatever the map held before, after [getOrSet] the key is in the map
    with the value that was returned, and the producer was called at most
    once. When that value is not [undefined], calling [getOrSet] again with
    any producer returns it again and changes nothing: the second producer
    is not called. *)
Theorem getOrSet_then_present key
    (defaultValue other : gmap K value * W -> value * (gmap K value * W)) h :
  let v := fst (Map.getOrSet key defaultValue h) in
  let h1 := snd (Map.getOrSet key defaultValue h) in
  Map.map h1 !! key = Some v /\
  (Map.calls h1 = Map.calls h \/ Map.calls h1 = S (Map.calls h)) /\
  (v <> VUndefined -> Map.getOrSet key other h1 = (v, h1)).
Proof.
  cbn zeta.
  assert (Hstored :
    Map.map (snd (Map.getOrSet key defaultValue h)) !! key
    = Some (fst (Map.getOrSet key defaultValue h)) /\
    (Map.calls (snd (Map.getOrSet key defaultValue h)) = Map.calls h \/
     Map.calls (snd (Map.getOrSet key defaultValue h)) = S (Map.calls h))).
  { unfold Map.getOrSet, Map.get, Map.invoke, Map.set.
    destruct (Map.map h !! key) as [v|] eqn:Hk.
    - destruct (strict_neq v VUndefined); [cbn; auto|].
      destruct (defaultValue _) as [v' [m w]]. cbn. rewrite lookup_insert_eq. auto.
    - cbn [strict_neq strict_eq negb].
      destruct (defaultValue _) as [v' [m w]]. cbn. rewrite lookup_insert_eq. auto. }
  destruct Hstored as [Hstored Hcalls]. split; [exact Hstored|]. split; [exact Hcalls|].
  intros Hv%strict_neq_undefined.
  destruct (Map.getOrSet key defaultValue h) as [v h1]. cbn [fst snd] in *.
  unfold Map.getOrSet at 1, Map.get. now rewrite Hstored, Hv.
Qed.

End GetOrSetAgain.

Lemma getOrSet_then_present_witness :
  let v := fst (Map.getOrSet 2%nat (fun s => (VNull, s))
                  (Map.Heap {[1%nat := VBool true]} tt 0)) in
  let h1 := snd (Map.getOrSet 2%nat (fun s => (VNull, s))
                   (Map.Heap {[1%nat := VBool true]} tt 0)) in
  VNull <> VUndefined /\
  Map.getOrSet 2%nat (fun s => (VBool false, s)) h1 = (v, h1).
Proof.
  split; [discriminate|].
  apply (getOrSet_then_present 2%nat (fun s => (VNull, s)) (fun s => (VBool false, s))
           (Map.Heap {[1%nat := VBool true]} tt 0)).
  discriminate.
Defined.

(** ** [Object.mapEntries] *)

Section MapEntriesProperties.

Local Open Scope nat_scope.

Context {B : Type}.

Implicit Types (entries : list (string * B)) (k : string).

Lemma fromEntries_snoc entries (e : string * B) :
  Object_fromEntries (entries ++ [e]) = <[fst e := snd e]> (Object_fromEntries entries).
Proof. unfold Object_fromEntries. now rewrite foldl_app. Qed.

Lemma fromEntries_Some entries k (v : B) :
  Object_fromEntries entries !! k = Some v <->
  exists i e, entries !! i = Some e /\ e = (k, v) /\
              forall j e', i < j -> entries !! j = Some e' -> fst e' <> k.
Proof.
  induction entries as [|e0 entries IH] using rev_ind.
  - split; [discriminate|]. intros (i & e & He & _). discriminate He.
  - rewrite fromEntries_snoc.
    destruct (decide (fst e0 = k)) as [<-|Hk].
    + rewrite lookup_insert_eq. split.
      * intros [= <-]. exists (length entries), e0.
        split; [now rewrite list_lookup_middle|].
        split; [now destruct e0|].
        intros j e' Hj He'. apply lookup_lt_Some in He'.
        rewrite length_app in He'. cbn in He'. lia.
      * intros (i & e & He & -> & Hlast). cbn [fst] in *.
        destruct (decide (i = length entries)) as [->|Hi].
        -- rewrite list_lookup_middle in He by reflexivity. now injection He as ->.
        -- pose proof (lookup_lt_Some _ _ _ He) as Hlt.
           rewrite length_app in Hlt. cbn in Hlt.
           destruct (Hlast (length entries) e0); [lia| |reflexivity].
           now rewrite list_lookup_middle.
    + rewrite lookup_insert_ne by assumption. rewrite IH. split.
      * intros (i & e & He & -> & Hlast). exists i, (k, v).
        pose proof (lookup_lt_Some _ _ _ He) as Hlt.
        split; [now rewrite lookup_app_l|]. split; [reflexivity|].
        intros j e' Hj He'.
        destruct (decide (j < length entries)) as [Hjl|Hjl].
        -- rewrite lookup_app_l in He' by assumption. eauto.
        -- pose proof (lookup_lt_Some _ _ _ He') as Hlt'.
           rewrite length_app in Hlt'. cbn in Hlt'.
           replace j with (length entries) in He' by lia.
           rewrite list_lookup_middle in He' by reflexivity. now injection He' as <-.
      * intros (i & e & He & -> & Hlast).
        pose proof (lookup_lt_Some _ _ _ He) as Hlt.
        rewrite length_app in Hlt. cbn in Hlt.
        destruct (decide (i = length entries)) as [->|Hi].
        -- rewrite list_lookup_middle in He by reflexivity.
           injection He as ->. now destruct Hk.
        -- rewrite lookup_app_l in He by lia. exists i, (k, v).
           split; [assumption|]. split; [reflexivity|].
           intros j e' Hj He'. apply (Hlast j e' Hj).
           pose proof (lookup_lt_Some _ _ _ He') as Hlt'.
           now rewrite lookup_app_l.
Qed.

Lemma fromEntries_None entries k :
  Object_fromEntries entries !! k = None <-> Forall (fun e => fst e <> k) entries.
Proof.
  induction entries as [|e0 entries IH] using rev_ind.
  - split; [constructor|reflexivity].
  - rewrite fromEntries_snoc, lookup_insert_None, IH, Forall_app, Forall_singleton.
    tauto.
Qed.

End MapEntriesProperties.

(** X9: [Object.mapEntries] gives the key [k] the value [v] exactly when [(k, v)]
    is what [fn] returns for some entry and no later entry is mapped to the
    key [k] (of two entries mapped to the same key the later one wins); a
    key no entry is mapped to is absent. The record given is not changed. *)
Theorem mapEntries_spec {A B : Type} (obj : list (string * A))
    (fn : string * A -> string * B) (k : string) :
  (forall v,
     Object_mapEntries obj fn !! k = Some v <->
     exists i e, obj !! i = Some e /\ fn e = (k, v) /\
       forall j e', (i < j)%nat -> obj !! j = Some e' -> fst (fn e') <> k) /\
  (Object_mapEntries obj fn !! k = None <-> Forall (fun e => fst (fn e) <> k) obj).
Proof.
  unfold Object_mapEntries, Object_entries. split.
  - intros v. rewrite fromEntries_Some. split.
    + intros (i & e & He & -> & Hlast).
      rewrite list_lookup_fmap in He.
      destruct (obj !! i) as [e0|] eqn:Hi; [|discriminate].
      injection He as He. exists i, e0. split; [exact Hi|]. split; [assumption|].
      intros j e' Hj He'. apply (Hlast j (fn e') Hj).
      now rewrite list_lookup_fmap, He'.
    + intros (i & e & He & Hfn & Hlast). exists i, (k, v).
      split; [now rewrite list_lookup_fmap, He, <- Hfn|]. split; [reflexivity|].
      intros j e' Hj He'. rewrite list_lookup_fmap in He'.
      destruct (obj !! j) as [e0|] eqn:Hje; [|discriminate].
      injection He' as <-. eauto.
  - rewrite fromEntries_None. apply Forall_fmap.
Qed.

(** A scenario for [Object.mapEntries] with a function that sends two keys
    to one. *)
Example mapEntries_scenario :
  Object_mapEntries [("foo", 1); ("bar", 2); ("baz", 3)]
    (fun e => (if bool_decide (fst e = "foo") then "bar" else fst e, snd e + 1))
  = {["bar" := 3; "baz" := 4]}.
Proof. apply map_eq. intros k. vm_compute. reflexivity. Qed.

(** ** What [takeWhile] and [skipWhile] yield *)

Section TakeSkipItems.

Local Open Scope nat_scope.

Context {T : Type} (predicate : T -> nat -> bool).

Lemma takeWhile_items (l : list T) : forall i fuel,
  length l < fuel ->
  exists st,
    drain (Iterator.takeWhile_next predicate) fuel (Iterator.TakeWhile l i false)
    = Some (firstn (skipped_prefix predicate l i) l, st) /\
    Iterator.tw_iter st = skipn (S (skipped_prefix predicate l i)) l.
Proof.
  induction l as [|x l IH]; intros i [|fuel] Hfuel; try (cbn in Hfuel; lia).
  - exists (Iterator.TakeWhile [] i false). split; reflexivity.
  - cbn [drain Iterator.takeWhile_next Iterator.tw_done Iterator.tw_iter
         Iterator.tw_index Iterator.next negb skipped_prefix].
    destruct (predicate x i) eqn:Hp.
    + destruct (IH (S i) fuel) as (st & -> & Hrest); [cbn in Hfuel; lia|].
      exists st. split; [reflexivity|exact Hrest].
    + exists (Iterator.TakeWhile l (S i) true). split; reflexivity.
Qed.

Lemma takeOne_skipn (l : list T) : forall n,
  Iterator.takeOne (skipn n l) = (l !! n, skipn (S n) l).
Proof.
  induction l as [|x l IH]; intros [|n]; try reflexivity.
  exact (IH n).
Qed.

(** X10: Driven to the end over the same input, [takeWhile] yields the longest
    front of the input whose items the predicate accepts (each with its
    index), and [skipWhile] yields everything after that front, whether the
    predicate accepts it or not: together they yield the input. *)
Theorem takeWhile_skipWhile_split (l : list T) (fuel : nat) :
  length l < fuel ->
  exists ys zs st1 st2,
    drain (Iterator.takeWhile_next predicate) fuel (Iterator.takeWhile l)
    = Some (ys, st1) /\
    drain (Iterator.skipWhile_next predicate) fuel (Iterator.skipWhile l)
    = Some (zs, st2) /\
    ys = firstn (skipped_prefix predicate l 0) l /\
    zs = skipn (skipped_prefix predicate l 0) l /\
    ys ++ zs = l.
Proof.
  intros Hfuel.
  destruct (takeWhile_items l 0 fuel Hfuel) as (st1 & Htake & _).
  destruct (skipWhile_drain predicate l 0 fuel Hfuel) as (zs & st2 & Hskip & _ & ->).
  eexists _, _, st1, st2. split; [exact Htake|]. split; [exact Hskip|].
  split; [reflexivity|]. split; [reflexivity|]. apply firstn_skipn.
Qed.

(** X11: The item on which [takeWhile] stops is consumed and lost: after the
    adapter is done, the next item its upstream gives is the one after the
    rejected item. *)
Theorem takeWhile_loses_rejected (l : list T) (fuel : nat) :
  length l < fuel ->
  exists ys st,
    drain (Iterator.takeWhile_next predicate) fuel (Iterator.takeWhile l)
    = Some (ys, st) /\
    Iterator.takeOne (Iterator.tw_iter st)
    = (l !! S (length ys), skipn (S (S (length ys))) l).
Proof.
  intros Hfuel.
  destruct (takeWhile_items l 0 fuel Hfuel) as (st & Htake & Hrest).
  eexists _, st. split; [exact Htake|].
  rewrite Hrest, takeOne_skipn, length_firstn.
  now rewrite Nat.min_l by apply skipped_prefix_le.
Qed.

Lemma skipWhile_loop_Done (l : list T) : forall i st,
  Iterator.skipWhile_loop predicate l i = (Done, st) ->
  exists i', st = Iterator.SkipWhile [] i' false.
Proof.
  induction l as [|x l IH]; intros i st; cbn [Iterator.skipWhile_loop].
  - intros [= <-]. eauto.
  - destruct (predicate x i); cbn [negb]; [apply IH|discriminate].
Qed.

Lemma partition_loop_Done (size : Z) (iter : list T) : forall part st,
  Iterator.partition_loop size part iter = (Done, st) ->
  st = Iterator.Partition [] true.
Proof.
  induction iter as [|v rest IH]; intros part st; cbn [Iterator.partition_loop].
  - now intros [= _ <-].
  - destruct (Z.of_nat (length (part ++ [v])) =? size)%Z; [discriminate|apply IH].
Qed.

(** X12: Termination is permanent: once [next] of [takeWhile], [skipWhile] or
    [partition] has reported [done], every later call reports [done] again
    and changes nothing, so nothing more is taken from upstream. *)
Theorem done_is_permanent (size : Z) :
  (forall st st', Iterator.takeWhile_next predicate st = (Done, st') ->
     Iterator.takeWhile_next predicate st' = (Done, st')) /\
  (forall st st', Iterator.skipWhile_next predicate st = (Done, st') ->
     Iterator.skipWhile_next predicate st' = (Done, st')) /\
  (forall (st st' : Iterator.partition_state (T := T)),
     Iterator.partition_next size st = (Done, st') ->
     Iterator.partition_next size st' = (Done, st')).
Proof.
  split; [|split].
  - intros [iter index done] st'. unfold Iterator.takeWhile_next.
    cbn [Iterator.tw_done Iterator.tw_iter Iterator.tw_index].
    destruct done; cbn [negb].
    + now intros [= <-].
    + destruct iter as [|x iter]; cbn [Iterator.next].
      * now intros [= <-].
      * destruct (predicate x index); [discriminate|]. now intros [= <-].
  - intros [iter index skipped] st'. unfold Iterator.skipWhile_next.
    cbn [Iterator.sw_skipped Iterator.sw_iter Iterator.sw_index].
    destruct skipped.
    + destruct iter as [|x iter]; cbn [Iterator.next]; [|discriminate].
      now intros [= <-].
    + intros (i' & ->)%skipWhile_loop_Done. reflexivity.
  - intros [iter done] st'. unfold Iterator.partition_next.
    cbn [Iterator.p_done Iterator.p_iter]. destruct done.
    + now intros [= <-].
    + intros ->%partition_loop_Done. reflexivity.
Qed.

End TakeSkipItems.

Lemma takeWhile_skipWhile_split_witness :
  exists ys zs st1 st2,
    drain (Iterator.takeWhile_next (fun v _ => v <? 2)) 4 (Iterator.takeWhile [1; 2; 1])
    = Some (ys, st1) /\
    drain (Iterator.skipWhile_next (fun v _ => v <? 2)) 4 (Iterator.skipWhile [1; 2; 1])
    = Some (zs, st2) /\
    ys = firstn (skipped_prefix (fun v (_ : nat) => v <? 2) [1; 2; 1] 0) [1; 2; 1] /\
    zs = skipn (skipped_prefix (fun v (_ : nat) => v <? 2) [1; 2; 1] 0) [1; 2; 1] /\
    ys ++ zs = [1; 2; 1].
Proof.
  apply (takeWhile_skipWhile_split (fun v _ => v <? 2) [1; 2; 1] 4). cbn. lia.
Defined.

Lemma takeWhile_loses_rejected_witness :
  exists ys st,
    drain (Iterator.takeWhile_next (fun v _ => v <? 2)) 4 (Iterator.takeWhile [1; 2; 3])
    = Some (ys, st) /\
    Iterator.takeOne (Iterator.tw_iter st)
    = ([1; 2; 3] !! S (length ys), skipn (S (S (length ys))) [1; 2; 3]).
Proof.
  apply (takeWhile_loses_rejected (fun v _ => v <? 2) [1; 2; 3] 4). cbn. lia.
Defined.

Lemma done_is_permanent_witness :
  Iterator.takeWhile_next (fun v (_ : nat) => v <? 2) (Iterator.TakeWhile [7] 1 true)
  = (Done, Iterator.TakeWhile [7] 1 true).
Proof.
  apply (proj1 (done_is_permanent (fun v (_ : nat) => v <? 2) 2)
           (Iterator.TakeWhile [5; 7] 0 false)).
  reflexivity.
Defined.

(** ** [partition] and [frontBiasedPartition] once more *)

Section PartitionAgain.

Local Open Scope nat_scope.

Context {T : Type}.

Implicit Types (l part iter : list T) (n size : Z).

(** X13: [partition] is lazy: for a positive size one call of [next] takes just
    the items of the group it yields from upstream, and reports [done]
    without a group only on an upstream that is exhausted. *)
Theorem partition_next_lazy n l :
  (0 < n)%Z ->
  Iterator.partition_next n (Iterator.partition l)
  = (match l with [] => Done | _ => Yield (firstn (Z.to_nat n) l) end,
     Iterator.Partition (skipn (Z.to_nat n) l) (length l <? Z.to_nat n)).
Proof.
  intros Hn. unfold Iterator.partition_next, Iterator.partition.
  cbn [Iterator.p_done Iterator.p_iter].
  destruct (Nat.ltb_spec (length l) (Z.to_nat n)) as [Hshort|Hfull].
  - rewrite partition_loop_short by (cbn [length]; lia). cbn [app].
    rewrite firstn_all2, skipn_all2 by lia.
    destruct l; reflexivity.
  - rewrite partition_loop_full by (cbn [length]; lia).
    cbn [length app]. rewrite Nat.sub_0_r.
    destruct l; [cbn in Hfull; lia|reflexivity].
Qed.

Lemma partition_loop_whole size iter : forall part,
  (size <= Z.of_nat (length part) \/ Z.of_nat (length part + length iter) < size)%Z ->
  Iterator.partition_loop size part iter
  = ((if 0 <? length (part ++ iter) then Yield (part ++ iter) else Done),
     Iterator.Partition [] true).
Proof.
  induction iter as [|v rest IH]; intros part Hsize; cbn [Iterator.partition_loop].
  - now rewrite app_nil_r.
  - cbn [length] in Hsize.
    destruct (Z.eqb_spec (Z.of_nat (length (part ++ [v]))) size) as [He|_].
    + rewrite length_app in He. cbn [length] in He. lia.
    + rewrite IH by (rewrite length_app; cbn [length]; lia).
      now rewrite <- app_assoc.
Qed.

(** X14: When the size is larger than the input, or is zero or negative, the
    group never gets full: [partition] yields the whole input as one group,
    and nothing for an empty input. *)
Theorem partition_whole_input size l fuel :
  (size <= 0 \/ Z.of_nat (length l) < size)%Z -> 2 <= fuel ->
  drain (Iterator.partition_next size) fuel (Iterator.partition l)
  = Some (match l with [] => [] | _ => [l] end, Iterator.Partition [] true).
Proof.
  intros Hsize Hfuel. destruct fuel as [|[|fuel]]; try lia.
  cbn [drain Iterator.partition_next Iterator.partition Iterator.p_done Iterator.p_iter].
  rewrite partition_loop_whole by (cbn [length]; lia).
  destruct l; reflexivity.
Qed.

Lemma concat_lengths_inj (g1 : list (list T)) : forall g2,
  length <$> g1 = length <$> g2 -> concat g1 = concat g2 -> g1 = g2.
Proof.
  induction g1 as [|a g1 IH]; intros [|b g2] Hlen Hcat; try discriminate Hlen.
  - reflexivity.
  - cbn in Hlen, Hcat. injection Hlen as Hab Hlen.
    apply app_inj_1 in Hcat as [-> Hcat]; [|assumption].
    f_equal. now apply IH.
Qed.

Lemma frontBiased_groups n l fuel :
  (0 < n)%Z -> length l / Z.to_nat n <= fuel ->
  exists chunks,
    Iterator.frontBiasedPartition fuel l n
    = Some (Return ((if length l mod Z.to_nat n =? 0 then []
                     else [firstn (length l mod Z.to_nat n) l]) ++ chunks)) /\
    concat chunks = skipn (length l mod Z.to_nat n) l /\
    length <$> chunks = replicate (length l / Z.to_nat n) (Z.to_nat n).
Proof.
  intros Hn Hq.
  set (k := Z.to_nat n) in *. set (L := length l) in *.
  assert (Hk : 0 < k) by (subst k; lia).
  pose proof (Nat.div_mod_eq L k) as HL.
  pose proof (Nat.mod_upper_bound L k ltac:(lia)) as Hr.
  assert (Hrem : Z.rem (Z.of_nat L) n = Z.of_nat (L mod k)).
  { rewrite Z.rem_mod_nonneg by lia.
    replace n with (Z.of_nat k) by (subst k; lia). now rewrite Nat2Z.inj_mod. }
  unfold Iterator.frontBiasedPartition, Iterator.remainder.
  destruct (Z.eqb_spec n 0); [lia|]. fold L. rewrite Hrem.
  destruct (Nat.eqb_spec (L mod k) 0) as [H0|H0].
  - rewrite H0. change (Z.of_nat 0) with 0%Z. rewrite Z.ltb_irrefl.
    cbv beta iota zeta.
    destruct (frontBiased_loop_spec l n Hn (L / k) fuel 0%Z [])
      as (chunks & -> & Hcat & Hlens); [lia|fold L; subst k; nia|lia|].
    fold L. rewrite Z.eqb_refl. cbn [Iterator.assert app].
    exists chunks. repeat split; assumption.
  - destruct (Z.ltb_spec 0 (Z.of_nat (L mod k))); [|lia].
    cbv beta iota zeta.
    destruct (frontBiased_loop_spec l n Hn (L / k) fuel (Z.of_nat (L mod k))
                [Iterator.slice l 0 (Z.of_nat (L mod k))])
      as (chunks & -> & Hcat & Hlens); [lia|fold L; subst k; nia|lia|].
    fold L. rewrite Z.eqb_refl. cbn [Iterator.assert app].
    exists chunks.
    pose proof (slice_chunk l 0 (Z.of_nat (L mod k))) as Hslice.
    rewrite Z.add_0_l in Hslice. rewrite Hslice by (fold L; lia).
    rewrite Nat2Z.id in *. cbn [Z.to_nat skipn].
    repeat split; assumption.
Qed.

(** X15: For a positive size, [frontBiasedPartition] returns the first
    [length l mod n] items as a group of their own (no such group when the
    remainder is zero), followed by exactly the groups [partition] yields
    for the rest of the input. *)
Theorem frontBiasedPartition_as_partition n l fuel :
  (0 < n)%Z -> length l < fuel ->
  exists pgroups st,
    drain (Iterator.partition_next n) fuel
      (Iterator.partition (skipn (length l mod Z.to_nat n) l))
    = Some (pgroups, st) /\
    Iterator.frontBiasedPartition fuel l n
    = Some (Return ((if length l mod Z.to_nat n =? 0 then []
                     else [firstn (length l mod Z.to_nat n) l]) ++ pgroups)).
Proof.
  intros Hn Hfuel.
  set (k := Z.to_nat n). set (L := length l).
  assert (Hk : 0 < k) by (subst k; lia).
  pose proof (Nat.div_mod_eq L k) as HL.
  pose proof (Nat.mod_upper_bound L k ltac:(lia)) as Hr.
  destruct (frontBiased_groups n l fuel Hn) as (chunks & Hf & Hcat & Hlens).
  { fold k L. subst L. nia. }
  fold k L in Hf, Hcat, Hlens.
  destruct (partition_drain n Hn fuel (skipn (L mod k) l))
    as (pgroups & st & Hd & Hpcat & Hplens).
  { rewrite length_skipn. lia. }
  exists pgroups, st. split; [exact Hd|]. rewrite Hf. do 3 f_equal.
  apply concat_lengths_inj; [|congruence].
  rewrite Hlens, Hplens, length_skipn. fold k L. unfold chunk_lengths.
  replace (L - L mod k) with (L / k * k) by lia.
  rewrite Nat.div_mul, Nat.Div0.mod_mul by lia. cbn [Nat.eqb].
  now rewrite app_nil_r.
Qed.

Lemma frontBiased_loop_diverges l size : (size <= 0)%Z -> forall fuel pos output,
  (pos < Z.of_nat (length l))%Z ->
  Iterator.frontBiased_loop fuel l size pos output = None.
Proof.
  intros Hsize. induction fuel as [|fuel IH]; intros pos output Hpos;
    cbn [Iterator.frontBiased_loop];
    destruct (Z.ltb_spec pos (Z.of_nat (length l))); try lia; [reflexivity|].
  apply IH. lia.
Qed.

(** X16: [frontBiasedPartition] returns the empty array for an empty input
    whatever the size is. For a size that is zero, or negative and not
    larger in magnitude than the input is long, it does not terminate on a
    non-empty input: no number of rounds of its loop is enough. *)
Theorem frontBiasedPartition_nonpositive_size :
  (forall size fuel,
     Iterator.frontBiasedPartition fuel (@nil T) size = Some (Return [])) /\
  (forall l size fuel,
     l <> [] -> (size <= 0)%Z -> (- size <= Z.of_nat (length l))%Z ->
     Iterator.frontBiasedPartition fuel l size = None).
Proof.
  split.
  - intros size fuel. unfold Iterator.frontBiasedPartition, Iterator.remainder.
    destruct (size =? 0)%Z; destruct fuel; reflexivity.
  - intros l size fuel Hl Hsize Hmag.
    assert (HL : (0 < Z.of_nat (length l))%Z) by (destruct l; [congruence|cbn; lia]).
    unfold Iterator.frontBiasedPartition, Iterator.remainder.
    destruct (Z.eqb_spec size 0) as [->|Hne].
    + now rewrite frontBiased_loop_diverges by lia.
    + assert (Hrem : (0 <= Z.rem (Z.of_nat (length l)) size < - size)%Z).
      { rewrite <- (Z.opp_involutive size) at 1 2.
        rewrite Z.rem_opp_r by lia. apply Z.rem_bound_pos; lia. }
      destruct (Z.ltb_spec 0 (Z.rem (Z.of_nat (length l)) size));
        now rewrite frontBiased_loop_diverges by lia.
Qed.

End PartitionAgain.

Lemma partition_next_lazy_witness :
  Iterator.partition_next 2 (Iterator.partition [1; 2; 3])
  = (Yield (firstn (Z.to_nat 2) [1; 2; 3]),
     Iterator.Partition (skipn (Z.to_nat 2) [1; 2; 3]) (length [1; 2; 3] <? Z.to_nat 2)%nat).
Proof.
  apply (partition_next_lazy 2 [1; 2; 3]). lia.
Defined.

Lemma partition_whole_input_witness :
  drain (Iterator.partition_next 0) 2 (Iterator.partition [1; 2; 3])
  = Some ([[1; 2; 3]], Iterator.Partition [] true).
Proof.
  apply (partition_whole_input 0 [1; 2; 3] 2); [left|]; lia.
Defined.

Lemma frontBiasedPartition_as_partition_witness :
  exists pgroups st,
    drain (Iterator.partition_next 2) 6
      (Iterator.partition (skipn (length [1; 2; 3; 4; 5] mod Z.to_nat 2) [1; 2; 3; 4; 5]))
    = Some (pgroups, st) /\
    Iterator.frontBiasedPartition 6 [1; 2; 3; 4; 5] 2
    = Some (Return ((if (length [1; 2; 3; 4; 5] mod Z.to_nat 2 =? 0)%nat then []
                     else [firstn (length [1; 2; 3; 4; 5] mod Z.to_nat 2) [1; 2; 3; 4; 5]])
                    ++ pgroups)).
Proof.
  apply (frontBiasedPartition_as_partition 2 [1; 2; 3; 4; 5] 6); [lia|cbn; lia].
Defined.

Lemma frontBiasedPartition_nonpositive_size_witness :
  Iterator.frontBiasedPartition 100 [1; 2; 3] (-2) = None.
Proof.
  apply (proj2 frontBiasedPartition_nonpositive_size [1; 2; 3] (-2) 100%nat).
  - discriminate.
  - lia.
  - cbn. lia.
Defined.

(** ** [findMap] and the filtering iterators *)

Section FindMapProperties.

Local Open Scope nat_scope.

Context {T : Type} (mapFn : T -> nat -> value).

Lemma findMap_loop_none (l : list T) : forall i,
  (forall j x, l !! j = Some x -> mapFn x (i + j) = VUndefined) ->
  Iterator.findMap_loop mapFn l i = (VUndefined, []).
Proof.
  induction l as [|x l IH]; intros i Hnone; cbn [Iterator.findMap_loop]; [reflexivity|].
  pose proof (Hnone 0 x eq_refl) as H0. rewrite Nat.add_0_r in H0. rewrite H0.
  cbn [strict_neq strict_eq negb]. apply IH. intros j y Hj.
  replace (S i + j) with (i + S j) by lia. exact (Hnone (S j) y Hj).
Qed.

Lemma findMap_loop_first (l : list T) : forall i j x,
  l !! j = Some x -> mapFn x (i + j) <> VUndefined ->
  (forall j' x', j' < j -> l !! j' = Some x' -> mapFn x' (i + j') = VUndefined) ->
  Iterator.findMap_loop mapFn l i = (mapFn x (i + j), skipn (S j) l).
Proof.
  induction l as [|x0 l IH]; intros i j x Hj Hx Hfirst; [discriminate Hj|].
  cbn [Iterator.findMap_loop]. destruct j as [|j].
  - injection Hj as ->. rewrite Nat.add_0_r in *.
    apply strict_neq_undefined in Hx. now rewrite Hx.
  - pose proof (Hfirst 0 x0 ltac:(lia) eq_refl) as H0.
    rewrite Nat.add_0_r in H0. rewrite H0. cbn [strict_neq strict_eq negb].
    rewrite (IH (S i) j x Hj).
    + now replace (S i + j) with (i + S j) by lia.
    + now replace (S i + j) with (i + S j) by lia.
    + intros j' x' Hlt Hj'. replace (S i + j') with (i + S j') by lia.
      apply (Hfirst (S j') x'); [lia|exact Hj'].
Qed.

(** X17: [findMap] returns what [mapFn] gives for the first item it does not map
    to [undefined], the item being passed with its position, and takes the
    items up to and including that one from the iterator; when every item
    is mapped to [undefined] it returns [undefined] and the iterator is
    exhausted. *)
Theorem findMap_spec (l : list T) :
  ((forall j x, l !! j = Some x -> mapFn x j = VUndefined) ->
   Iterator.findMap l mapFn = (VUndefined, [])) /\
  (forall j x,
     l !! j = Some x -> mapFn x j <> VUndefined ->
     (forall j' x', j' < j -> l !! j' = Some x' -> mapFn x' j' = VUndefined) ->
     Iterator.findMap l mapFn = (mapFn x j, skipn (S j) l)).
Proof.
  unfold Iterator.findMap. split.
  - intros Hnone. now apply findMap_loop_none.
  - intros j x Hj Hx Hfirst.
    exact (findMap_loop_first l 0 j x Hj Hx Hfirst).
Qed.

End FindMapProperties.

Lemma findMap_spec_witness :
  Iterator.findMap [1; 2; 3] (fun _ _ => VUndefined) = (VUndefined, []) /\
  Iterator.findMap [1; 2; 3] (fun v _ => if v =? 2 then VBool true else VUndefined)
  = (VBool true, skipn 2 [1; 2; 3]).
Proof.
  split.
  - apply (proj1 (findMap_spec (fun _ _ => VUndefined) [1; 2; 3])). reflexivity.
  - apply (proj2 (findMap_spec
                    (fun v _ => if v =? 2 then VBool true else VUndefined) [1; 2; 3])
             1%nat 2); try reflexivity; try discriminate.
    intros [|j'] x' Hlt Hj'; [|lia]. injection Hj' as <-. reflexivity.
Defined.

Section FilterProperties.

Local Open Scope nat_scope.

Context {T : Type} (keep : T -> bool).

Lemma filter_drain (l : list T) : forall counter fuel,
  length l < fuel ->
  drain (Iterator.filter_next (fun item _ => keep item)) fuel (Iterator.Filter l counter)
  = Some (List.filter keep l, Iterator.Filter [] (counter + length l)).
Proof.
  induction l as [|x l IH]; intros counter [|fuel] Hfuel; try (cbn in Hfuel; lia).
  - cbn. now rewrite Nat.add_0_r.
  - cbn [List.filter length]. rewrite <- Nat.add_succ_comm.
    destruct (keep x) eqn:Hx.
    + cbn [drain Iterator.filter_next Iterator.f_iter Iterator.f_counter
           Iterator.filter_loop].
      rewrite Hx, IH by (cbn in Hfuel; lia). reflexivity.
    + rewrite <- (IH (S counter) (S fuel)) by (cbn in Hfuel |- *; lia).
      cbn [drain Iterator.filter_next Iterator.f_iter Iterator.f_counter
           Iterator.filter_loop].
      now rewrite Hx.
Qed.

End FilterProperties.

(** X18: On iterators, [present] yields the items that are not [undefined] and
    [nonNullable] the items that are neither [undefined] nor [null], in the
    order of the input; driven to the end both have taken every item from
    upstream. *)
Theorem iterator_present_nonNullable (l : list value) (fuel : nat) :
  (length l < fuel)%nat ->
  exists st1 st2,
    drain Iterator.present_next fuel (Iterator.filter l)
    = Some (List.filter (fun v => strict_neq v VUndefined) l, st1) /\
    drain Iterator.nonNullable_next fuel (Iterator.filter l)
    = Some (List.filter (fun v => strict_neq v VUndefined && strict_neq v VNull) l, st2) /\
    Iterator.f_iter st1 = [] /\ Iterator.f_iter st2 = [] /\
    Forall (fun v => v <> VUndefined /\ v <> VNull)
      (List.filter (fun v => strict_neq v VUndefined && strict_neq v VNull) l).
Proof.
  intros Hfuel. unfold Iterator.present_next, Iterator.nonNullable_next, Iterator.filter.
  rewrite (filter_drain (fun v => strict_neq v VUndefined) l 0 fuel Hfuel).
  rewrite (filter_drain (fun v => strict_neq v VUndefined && strict_neq v VNull)
             l 0 fuel Hfuel).
  eexists _, _. do 4 (split; [reflexivity|]).
  apply Forall_forall. intros v Hv%list_elem_of_In%filter_In.
  destruct Hv as [_ Hv%andb_true_iff]. destruct v; cbn in Hv; intuition discriminate.
Qed.

Lemma iterator_present_nonNullable_witness :
  exists st1 st2,
    drain Iterator.present_next 4 (Iterator.filter [VNull; VUndefined; VBool true])
    = Some (List.filter (fun v => strict_neq v VUndefined)
              [VNull; VUndefined; VBool true], st1) /\
    drain Iterator.nonNullable_next 4 (Iterator.filter [VNull; VUndefined; VBool true])
    = Some (List.filter (fun v => strict_neq v VUndefined && strict_neq v VNull)
              [VNull; VUndefined; VBool true], st2) /\
    Iterator.f_iter st1 = [] /\ Iterator.f_iter st2 = [] /\
    Forall (fun v => v <> VUndefined /\ v <> VNull)
      (List.filter (fun v => strict_neq v VUndefined && strict_neq v VNull)
         [VNull; VUndefined; VBool true]).
Proof.
  apply (iterator_present_nonNullable [VNull; VUndefined; VBool true] 4). cbn. lia.
Defined.

Lemma insert_errors_witness :
  Array.insert [1; 2] 7 (Fin 1 1) = Throw TypeError /\
  Array.insert [1; 2] 7 (number_of_Z 3) = Throw RangeError.
Proof.
  split.
  - apply (proj2 (proj1 (proj2 (insert_errors [1; 2] 7 (Fin 1 1))))). reflexivity.
  - apply (proj2 (proj2 (proj2 (insert_errors [1; 2] 7 (number_of_Z 3))))).
    split; [reflexivity|]. right. vm_compute. reflexivity.
Defined.

Lemma mapEntries_spec_witness :
  Object_mapEntries [("a", 1)] (fun e => (fst e, snd e + 1)) !! "b" = None.
Proof.
  apply (proj2 (proj2 (mapEntries_spec [("a", 1)] (fun e => (fst e, snd e + 1)) "b"))).
  repeat constructor. discriminate.
Defined.
